(** * SIF loader and integrity envelope: a shallow embedding

    The loader of [pkg/sif/load.go] is embedded function by function.  Go
    values are modelled as the code has them: [int64] fields as [Z], byte
    arrays and slices as [list byte], Go strings as [string], a Go [error]
    as [option error] ([None] is [nil]), a pointer that may be [nil] as an
    [option].  Operating-system state (open files, active memory mappings)
    is threaded explicitly through a [World].  A Go run-time panic is an
    outcome of its own, so that "does not crash" is a statement about the
    model and not a property of its types. *)

From stdpp Require Import gmap strings list finite.
From Stdlib Require Import ZArith.
From Stdlib.Strings Require Import Byte.

Local Open Scope Z_scope.

(** Equality of bytes is decidable. *)
#[global] Instance byte_eq_dec : EqDecision byte := Byte.byte_eq_dec.

(** There are 256 bytes. *)
Definition allBytes : list byte :=
  omap (fun n => Byte.of_N (N.of_nat n)) (seq 0 256).

#[global] Program Instance byte_finite : Finite byte := {| enum := allBytes |}.
Next Obligation. apply (bool_decide_unpack _). vm_compute. exact I. Qed.
Next Obligation. intros x. apply (bool_decide_unpack _). destruct x; vm_compute; exact I. Qed.

(** ** Outcomes of a Go call: it returns, or the run time panics. *)

Inductive outcome (A : Type) : Type :=
| Returned (a : A)
| Panicked (msg : string).
Arguments Returned {A} a.
Arguments Panicked {A} msg.

Definition returns {A : Type} (o : outcome A) : Prop :=
  match o with Returned _ => True | Panicked _ => False end.

(** ** Errors

    [cause] enumerates the library errors the loader wraps: those of
    [io.ReadFull] and [bytes.Reader.Seek], of [os.File] and of the
    [syscall] package. *)

Inductive cause : Type :=
| EOF                 (* io.EOF *)
| ErrUnexpectedEOF    (* io.ErrUnexpectedEOF *)
| NegativePosition    (* bytes.Reader.Seek: negative position *)
| ENOENT              (* no such file *)
| EINVAL              (* syscall.EINVAL *)
| EBADF               (* syscall.EBADF *)
| EACCES              (* syscall.EACCES *)
| ErrInvalid          (* os.ErrInvalid: method called on a nil *os.File *)
| ErrClosed.          (* os.ErrClosed: file already closed *)

(** One constructor per [fmt.Errorf] (or returned error) of load.go, with
    the values its message is formatted from. *)

Inductive error : Type :=
| ErrReadHeader (c : cause)        (* reading global header from container file *)
| ErrSeekDescr (c : cause)         (* seek() setting to descriptors start *)
| ErrReadDescr (c : cause)         (* reading descriptor array from container file *)
| ErrGoarch (goarch : string)      (* GOARCH %v not supported *)
| ErrMagic (got : list byte) (want : string)    (* invalid SIF file: Magic *)
| ErrVersion (got : list byte) (want : string)  (* invalid SIF file: Version *)
| ErrArch (got : list byte) (want : string)     (* invalid SIF file: Arch *)
| ErrStat                          (* while trying to size SIF file to mmap *)
| ErrTooBig                        (* file is to big to be mapped *)
| ErrMmap                          (* while trying to call mmap on SIF file *)
| ErrUnmap                         (* while calling unmapping SIF file *)
| ErrOpenRO (c : cause)            (* opening(RDONLY) container file *)
| ErrOpenRW (c : cause)            (* opening(RDWR) container file *)
| ErrNilFp                         (* provided fp for file is invalid *)
| ErrCloseFile (c : cause).        (* closing SIF file failed *)

(** ** Machine integers *)

(** Two's complement wrap-around of a 64-bit signed integer. *)
Definition wrap64 (z : Z) : Z := (z + 2 ^ 63) mod 2 ^ 64 - 2 ^ 63.

(** [int(x)] and [int64(x)] on a platform whose [int] is 64 bits wide. *)
Definition to_int (z : Z) : Z := wrap64 z.
Definition to_int64 (z : Z) : Z := wrap64 z.

(** ** [bytes.Reader]

    [r_s] is the underlying slice and [r_i] the current reading index. *)

Record bytes_Reader : Type := mkReader { r_s : list byte; r_i : Z }.

Definition bytes_NewReader (b : list byte) : bytes_Reader :=
  {| r_s := b; r_i := 0 |}.

(** [Seek(offset, io.SeekStart)]: a negative position is an error, a
    position past the end is not. *)
Definition Reader_Seek (r : bytes_Reader) (offset : Z) : cause + bytes_Reader :=
  if offset <? 0 then inl NegativePosition
  else inr {| r_s := r_s r; r_i := offset |}.

(** [io.ReadFull(r, buf)] with [len(buf) = n]: nothing is read for an empty
    buffer; at the end of the data the error is [io.EOF]; when fewer than
    [n] bytes are left they are consumed and the error is
    [io.ErrUnexpectedEOF]. *)
Definition io_ReadFull (r : bytes_Reader) (n : Z) : (cause + list byte) * bytes_Reader :=
  if n <=? 0 then (inr [], r)
  else if Z.of_nat (length (r_s r)) <=? r_i r then (inl EOF, r)
  else
    let avail := drop (Z.to_nat (r_i r)) (r_s r) in
    if Z.of_nat (length avail) <? n
    then (inl ErrUnexpectedEOF, {| r_s := r_s r; r_i := Z.of_nat (length (r_s r)) |})
    else (inr (take (Z.to_nat n) avail), {| r_s := r_s r; r_i := r_i r + n |}).

(** ** The global header

    The declaration of [Header] is not among the sources; the record has
    the fields load.go reads.  [Magic], [Version] and [Arch] are the
    fixed-size byte arrays, [Descroff] and [Dtotal] are [int64]. *)

Record Header : Type := mkHeader {
  Magic : list byte;
  Version : list byte;
  Arch : list byte;
  Descroff : Z;
  Dtotal : Z
}.

Definition zeroHeader : Header :=
  {| Magic := []; Version := []; Arch := []; Descroff := 0; Dtotal := 0 |}.

(** The package constants and [GetSIFArch] are declared outside load.go:
    they are parameters of the development. *)

Class SifConsts : Type := {
  HdrMagic : string;
  HdrVersion : string;
  HdrArchUnknown : string;
  HdrArch386 : string;
  HdrArchAMD64 : string;
  HdrMagicLen : nat;
  HdrVersionLen : nat;
  HdrArchLen : nat;
  GetSIFArch : string -> string
}.

(** The host: [runtime.GOARCH]. *)
Class Host : Type := { GOARCH : string }.

(** The binary layout of the header and of a descriptor, as
    [binary.Read(..., binary.LittleEndian, ...)] decodes them: the encoded
    sizes and the decoding of a buffer of exactly that size.
    [zeroDescriptor] is the zero value of the struct and [maxSliceLen] the
    largest [n] for which [make([]Descriptor, n)] succeeds on the host. *)

Class Layout : Type := {
  Descriptor : Type;
  HdrSize : Z;
  decodeHeader : list byte -> Header;
  DescrSize : Z;
  decodeDescriptor : list byte -> Descriptor;
  zeroDescriptor : Descriptor;
  maxSliceLen : Z
}.

(** [string(b[:n])] for a byte array [b]. *)
Definition string_of_prefix (n : nat) (b : list byte) : string :=
  String.string_of_list_byte (take n b).

(** ** The operating system

    An [*os.File] is a handle into the table of open files; closing
    removes the entry.  [w_maps] is the table of active mappings that Go's
    [syscall] package keeps ([mmapper.active]), keyed by base address.
    A file of the file system has its bytes and the access the process
    has to it.  Failures of the machine itself (no memory, no descriptors
    left) are outside the model. *)

Record FsFile : Type := mkFsFile {
  fs_data : list byte;
  fs_readable : bool;
  fs_writable : bool
}.

Record OpenFile : Type := mkOpenFile { of_data : list byte; of_rdwr : bool }.

Record World : Type := mkWorld {
  w_fs : gmap string FsFile;
  w_files : gmap Z OpenFile;
  w_nextfile : Z;
  w_maps : gmap Z (list byte);
  w_brk : Z;
  w_pagesize : Z
}.

(** A Go slice over mapped memory: base address and length.  The [nil]
    slice has length 0. *)
Record Slice : Type := mkSlice { s_base : Z; s_len : Z }.

Definition nilSlice : Slice := {| s_base := 0; s_len := 0 |}.

Inductive Prot : Type := PROT_READ | PROT_WRITE.
Inductive MapFlags : Type := MAP_PRIVATE | MAP_SHARED.

(** [os.Open] ([rdwr = false]) and [os.OpenFile(name, os.O_RDWR, 0644)]
    ([rdwr = true]): [ENOENT] for a name that is not there, [EACCES] for
    a file the process may not read, or may not write when it asks to;
    on failure the [*os.File] is nil and nothing is opened. *)
Definition os_OpenFile (name : string) (rdwr : bool) (w : World) : (cause + Z) * World :=
  match w_fs w !! name with
  | None => (inl ENOENT, w)
  | Some f =>
      if fs_readable f && (negb rdwr || fs_writable f)
      then
        (inr (w_nextfile w),
         {| w_fs := w_fs w;
            w_files := <[w_nextfile w := mkOpenFile (fs_data f) rdwr]> (w_files w);
            w_nextfile := w_nextfile w + 1;
            w_maps := w_maps w; w_brk := w_brk w; w_pagesize := w_pagesize w |})
      else (inl EACCES, w)
  end.

Definition os_Open (name : string) (w : World) : (cause + Z) * World :=
  os_OpenFile name false w.

(** [os.File.Stat] followed by [Size()]. *)
Definition File_Stat (fp : option Z) (w : World) : cause + Z :=
  match fp with
  | None => inl ErrInvalid
  | Some h =>
      match w_files w !! h with
      | None => inl ErrClosed
      | Some f => inr (Z.of_nat (length (of_data f)))
      end
  end.

(** [int(fp.Fd())]: the descriptor, or [-1] for a nil or closed file. *)
Definition File_Fd (fp : option Z) (w : World) : Z :=
  match fp with
  | None => -1
  | Some h => if decide (is_Some (w_files w !! h)) then h else -1
  end.

(** [os.File.Close]. *)
Definition File_Close (fp : option Z) (w : World) : option cause * World :=
  match fp with
  | None => (Some ErrInvalid, w)
  | Some h =>
      match w_files w !! h with
      | None => (Some ErrClosed, w)
      | Some _ =>
          (None,
           {| w_fs := w_fs w; w_files := delete h (w_files w);
              w_nextfile := w_nextfile w;
              w_maps := w_maps w; w_brk := w_brk w; w_pagesize := w_pagesize w |})
      end
  end.

(** [syscall.Mmap(fd, 0, length, prot, flags)]: a non-positive length is
    [EINVAL]; the kernel refuses a descriptor that is not open ([EBADF])
    and a shared writable mapping of a file not opened for writing
    ([EACCES]).  The mapping holds the file's bytes, zero-filled up to
    [length], and is registered in the table of active mappings. *)
Definition syscall_Mmap (fd : Z) (offset : Z) (len : Z) (prot : Prot) (flags : MapFlags)
    (w : World) : (cause + Slice) * World :=
  if len <=? 0 then (inl EINVAL, w)
  else
    match w_files w !! fd with
    | None => (inl EBADF, w)
    | Some f =>
        match prot, flags, of_rdwr f with
        | PROT_WRITE, MAP_SHARED, false => (inl EACCES, w)
        | _, _, _ =>
            let b := take (Z.to_nat len)
                       (of_data f ++ replicate (Z.to_nat len - length (of_data f)) x00) in
            (inr {| s_base := w_brk w; s_len := len |},
             {| w_fs := w_fs w; w_files := w_files w; w_nextfile := w_nextfile w;
                w_maps := <[w_brk w := b]> (w_maps w);
                w_brk := w_brk w + len;
                w_pagesize := w_pagesize w |})
        end
    end.

(** [syscall.Munmap(data)]: [EINVAL] for an empty slice and for a slice
    that is not an active mapping; otherwise the mapping is removed. *)
Definition syscall_Munmap (data : Slice) (w : World) : option cause * World :=
  if s_len data <=? 0 then (Some EINVAL, w)
  else
    match w_maps w !! s_base data with
    | None => (Some EINVAL, w)
    | Some b =>
        if Z.of_nat (length b) =? s_len data
        then (None,
              {| w_fs := w_fs w; w_files := w_files w; w_nextfile := w_nextfile w;
                 w_maps := delete (s_base data) (w_maps w);
                 w_brk := w_brk w; w_pagesize := w_pagesize w |})
        else (Some EINVAL, w)
    end.

(** The bytes a slice over mapped memory denotes. *)
Definition slice_bytes (w : World) (s : Slice) : list byte :=
  default [] (w_maps w !! s_base s).

(** Modelled from the spec: [nextAligned] (its declaration is not among the
    sources); "memory-maps the entire file rounded up to the host page
    size". *)
Definition nextAligned (offset : Z) (align : Z) : Z :=
  if align <=? 0 then offset
  else if offset mod align =? 0 then offset
  else to_int64 ((offset / align + 1) * align).

(** ** The loader (load.go) *)

Section Loader.
Context `{C : SifConsts} `{H : Host} `{L : Layout}.

(** The fields of [FileImage] that load.go uses.  [Fp] and [Reader] are
    pointers; [Hdr] is the field [Header]; a [nil] [DescrArr] is the empty
    list. *)
Record FileImage : Type := mkFileImage {
  Fp : option Z;
  Filesize : Z;
  Filedata : Slice;
  Reader : option bytes_Reader;
  Hdr : Header;
  DescrArr : list Descriptor
}.

(** The zero value of [FileImage], which the named result [fimg] starts as. *)
Definition zeroFileImage : FileImage :=
  {| Fp := None; Filesize := 0; Filedata := nilSlice; Reader := None;
     Hdr := zeroHeader; DescrArr := [] |}.

Definition set_Fp (f : FileImage) (x : option Z) : FileImage :=
  {| Fp := x; Filesize := Filesize f; Filedata := Filedata f; Reader := Reader f;
     Hdr := Hdr f; DescrArr := DescrArr f |}.
Definition set_Filesize (f : FileImage) (x : Z) : FileImage :=
  {| Fp := Fp f; Filesize := x; Filedata := Filedata f; Reader := Reader f;
     Hdr := Hdr f; DescrArr := DescrArr f |}.
Definition set_Filedata (f : FileImage) (x : Slice) : FileImage :=
  {| Fp := Fp f; Filesize := Filesize f; Filedata := x; Reader := Reader f;
     Hdr := Hdr f; DescrArr := DescrArr f |}.
Definition set_Reader (f : FileImage) (x : option bytes_Reader) : FileImage :=
  {| Fp := Fp f; Filesize := Filesize f; Filedata := Filedata f; Reader := x;
     Hdr := Hdr f; DescrArr := DescrArr f |}.
Definition set_Hdr (f : FileImage) (x : Header) : FileImage :=
  {| Fp := Fp f; Filesize := Filesize f; Filedata := Filedata f; Reader := Reader f;
     Hdr := x; DescrArr := DescrArr f |}.
Definition set_DescrArr (f : FileImage) (x : list Descriptor) : FileImage :=
  {| Fp := Fp f; Filesize := Filesize f; Filedata := Filedata f; Reader := Reader f;
     Hdr := Hdr f; DescrArr := x |}.

(** A call with [*FileImage] argument returns the updated image beside
    its error. *)
Definition result : Type := FileImage * option error.

Definition nil_deref {A : Type} : outcome A :=
  Panicked "invalid memory address or nil pointer dereference".

(** [binary.Read] of [n] descriptors from a buffer of [n * DescrSize]
    bytes. *)
Fixpoint decodeDescriptors (n : nat) (bs : list byte) : list Descriptor :=
  match n with
  | O => []
  | S k =>
      decodeDescriptor (take (Z.to_nat DescrSize) bs)
        :: decodeDescriptors k (drop (Z.to_nat DescrSize) bs)
  end.

(** [make([]Descriptor, n)]: a run-time panic for a negative length and
    for one past what can be allocated. *)
Definition make_DescrArr (n : Z) : outcome (list Descriptor) :=
  if (n <? 0) || (maxSliceLen <? n)
  then Panicked "makeslice: len out of range"
  else Returned (replicate (Z.to_nat n) zeroDescriptor).

(** Read the global header from the container file. *)
Definition readHeader (fimg : FileImage) : outcome result :=
  match Reader fimg with
  | None => nil_deref
  | Some r =>
      match io_ReadFull r HdrSize with
      | (inl c, r') => Returned (set_Reader fimg (Some r'), Some (ErrReadHeader c))
      | (inr bs, r') =>
          Returned (set_Hdr (set_Reader fimg (Some r')) (decodeHeader bs), None)
      end
  end.

(** Read the descriptors: seek to [Descroff], allocate [Dtotal] slots and
    read them all. *)
Definition readDescriptors (fimg : FileImage) : outcome result :=
  match Reader fimg with
  | None => nil_deref
  | Some r =>
      match Reader_Seek r (Descroff (Hdr fimg)) with
      | inl c => Returned (fimg, Some (ErrSeekDescr c))
      | inr r1 =>
          let fimg := set_Reader fimg (Some r1) in
          match make_DescrArr (Dtotal (Hdr fimg)) with
          | Panicked msg => Panicked msg
          | Returned arr =>
              let fimg := set_DescrArr fimg arr in
              match io_ReadFull r1 (Dtotal (Hdr fimg) * DescrSize) with
              | (inl c, r2) =>
                  Returned (set_DescrArr (set_Reader fimg (Some r2)) [],
                            Some (ErrReadDescr c))
              | (inr bs, r2) =>
                  Returned (set_DescrArr (set_Reader fimg (Some r2))
                              (decodeDescriptors (Z.to_nat (Dtotal (Hdr fimg))) bs),
                            None)
              end
          end
      end
  end.

(** Look at key fields from the global header to assess SIF validity;
    [runnable] checks whether the container can run on the host. *)
Definition isValidSif (fimg : FileImage) (runnable : bool) : option error :=
  let arch := GetSIFArch GOARCH in
  if String.eqb arch HdrArchUnknown then Some (ErrGoarch GOARCH)
  else if negb (String.eqb (string_of_prefix (HdrMagicLen - 1) (Magic (Hdr fimg))) HdrMagic)
  then Some (ErrMagic (Magic (Hdr fimg)) HdrMagic)
  else if negb (String.eqb (string_of_prefix (HdrVersionLen - 1) (Version (Hdr fimg))) HdrVersion)
  then Some (ErrVersion (Version (Hdr fimg)) HdrVersion)
  else if runnable then
    (* Assume amd64 runs i386 code *)
    if String.eqb (string_of_prefix (HdrArchLen - 1) (Arch (Hdr fimg))) HdrArchAMD64
       && (negb (String.eqb arch HdrArch386) && negb (String.eqb arch HdrArchAMD64))
    then Some (ErrArch (Arch (Hdr fimg)) arch)
    else if negb (String.eqb (string_of_prefix (HdrArchLen - 1) (Arch (Hdr fimg))) arch)
    then Some (ErrArch (Arch (Hdr fimg)) arch)
    else None
  else None.

(** [mapFile] maps the file behind [Fp] and puts a [bytes.Reader] on top
    of the mapped data. *)
Definition mapFile (fimg : FileImage) (rdonly : bool) (w : World) : result * World :=
  match File_Stat (Fp fimg) w with
  | inl _ => ((fimg, Some ErrStat), w)
  | inr info_Size =>
      let fimg := set_Filesize fimg info_Size in
      let size := nextAligned info_Size (w_pagesize w) in
      if to_int64 (to_int size) <? info_Size then ((fimg, Some ErrTooBig), w)
      else
        let prot := if rdonly then PROT_READ else PROT_WRITE in
        let flags := if rdonly then MAP_PRIVATE else MAP_SHARED in
        match syscall_Mmap (File_Fd (Fp fimg) w) 0 (to_int size) prot flags w with
        | (inl _, w') => ((set_Filedata fimg nilSlice, Some ErrMmap), w')
        | (inr data, w') =>
            let fimg := set_Filedata fimg data in
            ((set_Reader fimg (Some (bytes_NewReader (slice_bytes w' data))), None), w')
        end
  end.

Definition unmapFile (fimg : FileImage) (w : World) : option error * World :=
  match syscall_Munmap (Filedata fimg) w with
  | (Some _, w') => (Some ErrUnmap, w')
  | (None, w') => (None, w')
  end.

(** The steps [LoadContainer] and [LoadContainerFp] both run once the
    file is open: map, read the header, validate it as runnable, read the
    descriptors.  Each returns at the first error with the image as it is
    then. *)
Definition loadSteps (fimg : FileImage) (rdonly : bool) (w : World) : outcome (result * World) :=
  (* get a memory map of the SIF file *)
  match mapFile fimg rdonly w with
  | ((fimg, Some err), w) => Returned ((fimg, Some err), w)
  | ((fimg, None), w) =>
      (* read global header from SIF file *)
      match readHeader fimg with
      | Panicked msg => Panicked msg
      | Returned (fimg, Some err) => Returned ((fimg, Some err), w)
      | Returned (fimg, None) =>
          (* validate global header *)
          match isValidSif fimg true with
          | Some err => Returned ((fimg, Some err), w)
          | None =>
              (* read descriptor array from SIF file *)
              match readDescriptors fimg with
              | Panicked msg => Panicked msg
              | Returned (fimg, err) => Returned ((fimg, err), w)
              end
          end
      end
  end.

(** [LoadContainer(filename, rdonly)]. *)
Definition LoadContainer (filename : string) (rdonly : bool) (w : World)
    : outcome (result * World) :=
  let fimg := zeroFileImage in
  match (if rdonly then os_Open filename w else os_OpenFile filename true w) with
  | (inl c, w) =>
      Returned ((fimg, Some (if rdonly then ErrOpenRO c else ErrOpenRW c)), w)
  | (inr fp, w) => loadSteps (set_Fp fimg (Some fp)) rdonly w
  end.

(** [LoadContainerFp(fp, rdonly)]. *)
Definition LoadContainerFp (fp : option Z) (rdonly : bool) (w : World)
    : outcome (result * World) :=
  let fimg := zeroFileImage in
  match fp with
  | None => Returned ((fimg, Some ErrNilFp), w)
  | Some _ => loadSteps (set_Fp fimg fp) rdonly w
  end.

(** [LoadContainerReader(b)]: the error of [readDescriptors] is dropped. *)
Definition LoadContainerReader (b : option bytes_Reader) : outcome result :=
  let fimg := set_Reader zeroFileImage b in
  match readHeader fimg with
  | Panicked msg => Panicked msg
  | Returned (fimg, Some err) => Returned (fimg, Some err)
  | Returned (fimg, None) =>
      match isValidSif fimg false with
      | Some err => Returned (fimg, Some err)
      | None =>
          match readDescriptors fimg with
          | Panicked msg => Panicked msg
          | Returned (fimg, _) => Returned (fimg, None)
          end
      end
  end.

(** [UnloadContainer]: when the image comes from a file, unmap it and
    close the file.  The receiver is a pointer. *)
Definition UnloadContainer (fimg : option FileImage) (w : World)
    : outcome (option error * World) :=
  match fimg with
  | None => nil_deref
  | Some fimg =>
      match Fp fimg with
      | Some _ =>
          match unmapFile fimg w with
          | (Some err, w) => Returned (Some err, w)
          | (None, w) =>
              match File_Close (Fp fimg) w with
              | (Some c, w) => Returned (Some (ErrCloseFile c), w)
              | (None, w) => Returned (None, w)
              end
          end
      | None => Returned (None, w)
      end
  end.

(** The conditions [isValidSif] tests, named. *)
Definition validMagic (h : Header) : Prop :=
  string_of_prefix (HdrMagicLen - 1) (Magic h) = HdrMagic.
Definition validVersion (h : Header) : Prop :=
  string_of_prefix (HdrVersionLen - 1) (Version h) = HdrVersion.
Definition archTag (h : Header) : string :=
  string_of_prefix (HdrArchLen - 1) (Arch h).
Definition hostArch : string := GetSIFArch GOARCH.
Definition hostSupported : Prop := hostArch <> HdrArchUnknown.

(** The header a buffer starts with, and the image [readHeader] leaves
    when it has decoded it. *)
Definition headerOf (bs : list byte) : Header :=
  decodeHeader (take (Z.to_nat HdrSize) bs).
Definition headerRead (bs : list byte) : FileImage :=
  set_Hdr (set_Reader zeroFileImage (Some {| r_s := bs; r_i := HdrSize |}))
    (headerOf bs).

(** The errors of the steps that follow [mapFile] in [LoadContainer] and
    [LoadContainerFp]: header read, header validation, descriptor read. *)
Definition laterStepError (e : error) : bool :=
  match e with
  | ErrReadHeader _ | ErrSeekDescr _ | ErrReadDescr _
  | ErrGoarch _ | ErrMagic _ _ | ErrVersion _ _ | ErrArch _ _ => true
  | _ => false
  end.

(** The slice [Filedata] is an active mapping of the world. *)
Definition mappingActive (w : World) (data : Slice) : Prop :=
  0 < s_len data /\
  exists b, w_maps w !! s_base data = Some b /\ Z.of_nat (length b) = s_len data.

(** What a failed load leaves behind: the mapping of [Filedata] is
    active and the file behind [Fp] is open. *)
Definition leftMapped (fimg : FileImage) (w : World) : Prop :=
  mappingActive w (Filedata fimg)
  /\ exists fp, Fp fimg = Some fp /\ is_Some (w_files w !! fp).

(** [isValidSif] without the first of its two architecture tests, the
    one under the comment "Assume amd64 runs i386 code". *)
Definition isValidSif_strict (fimg : FileImage) (runnable : bool) : option error :=
  let arch := GetSIFArch GOARCH in
  if String.eqb arch HdrArchUnknown then Some (ErrGoarch GOARCH)
  else if negb (String.eqb (string_of_prefix (HdrMagicLen - 1) (Magic (Hdr fimg))) HdrMagic)
  then Some (ErrMagic (Magic (Hdr fimg)) HdrMagic)
  else if negb (String.eqb (string_of_prefix (HdrVersionLen - 1) (Version (Hdr fimg))) HdrVersion)
  then Some (ErrVersion (Version (Hdr fimg)) HdrVersion)
  else if runnable then
    if negb (String.eqb (string_of_prefix (HdrArchLen - 1) (Arch (Hdr fimg))) arch)
    then Some (ErrArch (Arch (Hdr fimg)) arch)
    else None
  else None.

(** The bytes of descriptor slot [i] in a buffer: [DescrSize] bytes at
    offset [Descroff + i * DescrSize]. *)
Definition slotBytes (h : Header) (i : nat) (bs : list byte) : list byte :=
  take (Z.to_nat DescrSize)
    (drop (Z.to_nat (Descroff h) + i * Z.to_nat DescrSize) bs).

End Loader.

(** ** The integrity engine

    [signAndEncodeJSON] and [verifyAndDecodeJSON] are exercised by
    [pkg/integrity/clearsign_test.go]; their bodies are not among the
    sources.  The serialization, the digest, the signature scheme and the
    envelope encoding are the external primitive and stay parameters. *)

Module Integrity.

(** Modelled from the spec: the error taxonomy of the integrity engine and
    of the loader (the declarations are not among the sources). *)
Inductive Error : Type :=
| FormatError
| IOError
| KeyError
| UnknownIssuerError
| SignatureError
| TrailingDataError.

(** Modelled from the spec: the caller-selected hash algorithms, "SHA-1,
    SHA-224, SHA-256, SHA-384, SHA-512". *)
Inductive Hash : Type := SHA1 | SHA224 | SHA256 | SHA384 | SHA512.

(** Modelled from the spec: the signing configuration; [None] is "a
    library default if unspecified". *)
Record Config : Type := mkConfig { DefaultHash : option Hash }.

(** Modelled from the spec: a private key, which may still be "in its
    encrypted (locked) state", and a public key of the keyring. *)
Record PrivateKey : Type := mkPrivateKey {
  KeyId : list byte;
  Encrypted : bool;
  secret : list byte
}.

Record Entity : Type := mkEntity {
  PrimaryKeyId : list byte;
  public : list byte
}.

(** Modelled from the spec: the detached-signature packet; "the algorithm
    travels with the signature", as does the issuer key id. *)
Record Signature : Type := mkSignature {
  sig_Hash : Hash;
  IssuerKeyId : list byte;
  sig_value : list byte
}.

(** Modelled from the spec: the external capabilities the engine depends
    on: canonical serialization of the protected value and its decoding,
    digest, signing and checking of a digest, and the armored envelope
    with its parser, which returns the payload, the signature packet and
    the bytes trailing the envelope, or a typed error. *)
Class Primitive : Type := {
  Value : Type;
  encodeJSON : Value -> list byte;
  decodeJSON : list byte -> Error + Value;
  libraryDefaultHash : Hash;
  digest : Hash -> list byte -> list byte;
  signDigest : PrivateKey -> list byte -> list byte;
  checkDigest : Entity -> list byte -> list byte -> bool;
  armor : list byte -> Signature -> list byte;
  dearmor : list byte -> Error + (list byte * Signature * list byte)
}.

Section Engine.
Context `{P : Primitive}.

(** Modelled from the spec: the sign protocol of section 4.3 (the body of
    [signAndEncodeJSON] is not among the sources).  Canonical bytes,
    digest under the selected algorithm, detached signature, envelope; a
    locked key is a [KeyError]. *)
Definition signAndEncodeJSON (v : Value) (key : PrivateKey) (config : Config)
    : Error + list byte :=
  let payload := encodeJSON v in
  let h := default libraryDefaultHash (DefaultHash config) in
  let d := digest h payload in
  if Encrypted key then inl KeyError
  else
    inr (armor payload
           {| sig_Hash := h; IssuerKeyId := KeyId key; sig_value := signDigest key d |}).

(** Modelled from the spec: "resolve the signature's issuer key id against
    a caller-supplied keyring (ordered set of candidate public keys)". *)
Definition resolveIssuer (kr : list Entity) (id : list byte) : option Entity :=
  List.find (fun e => bool_decide (PrimaryKeyId e = id)) kr.

(** Modelled from the spec: the verify protocol of section 4.3, steps 1
    to 5 in their order (the body of [verifyAndDecodeJSON] is not among
    the sources). *)
Definition verifyAndDecodeJSON (data : list byte) (kr : list Entity)
    : Error + (Entity * Value * list byte) :=
  match dearmor data with
  | inl err => inl err
  | inr (payload, sg, rest) =>
      match rest with
      | _ :: _ => inl TrailingDataError
      | [] =>
          let d := digest (sig_Hash sg) payload in
          match resolveIssuer kr (IssuerKeyId sg) with
          | None => inl UnknownIssuerError
          | Some e =>
              if checkDigest e d (sig_value sg) then
                match decodeJSON payload with
                | inl err => inl err
                | inr v => inr (e, v, rest)
                end
              else inl SignatureError
          end
      end
  end.

(** What the engine assumes of the primitive. *)

(** The envelope parser inverts the envelope encoder, with nothing left. *)
Definition envelopeRoundTrip : Prop :=
  forall payload sg, dearmor (armor payload sg) = inr (payload, sg, []).

(** Decoding inverts the canonical serialization. *)
Definition jsonRoundTrip : Prop :=
  forall v, decodeJSON (encodeJSON v) = inr v.

(** [e] is the public half of [key]: same key id, and a signature made
    with [key] over a digest checks against [e] for that digest. *)
Definition signerOf (key : PrivateKey) (e : Entity) : Prop :=
  PrimaryKeyId e = KeyId key /\
  forall d, checkDigest e d (signDigest key d) = true.

(** A signature made with [key] checks against [e] for no other digest. *)
Definition unforgeable (key : PrivateKey) (e : Entity) : Prop :=
  forall d d', checkDigest e d' (signDigest key d) = true -> d' = d.

(** No two payloads share a digest. *)
Definition collisionFree : Prop :=
  forall h p p', digest h p = digest h p' -> p = p'.

(** Every digest has the same length, as those of the five algorithms
    have. *)
Definition fixedLength (n : nat) : Prop :=
  forall h p, length (digest h p) = n.

(** The keyring holds [e], and no two of its keys share a key id. *)
Definition keyringHolds (kr : list Entity) (e : Entity) : Prop :=
  In e kr /\ NoDup (map PrimaryKeyId kr).

End Engine.

End Integrity.

(** ** Concrete parameters

    An instantiation of the parameters on which the loader and the engine
    run on explicit inputs. *)

(** Little-endian integers of [encoding/binary]. *)
Definition le_uint (bs : list byte) : Z :=
  foldr (fun b acc => Z.of_N (Byte.to_N b) + 256 * acc) 0 bs.

Definition le_int64 (bs : list byte) : Z := to_int64 (le_uint bs).

Fixpoint le_bytes (n : nat) (z : Z) : list byte :=
  match n with
  | O => []
  | S k => default x00 (Byte.of_N (Z.to_N (z mod 256))) :: le_bytes k (z / 256)
  end.

(** [b[i:i+n]]. *)
Definition sub (i n : nat) (b : list byte) : list byte := take n (drop i b).

Module Fixture.

(** The format's constants, and [GetSIFArch] as a table from Go
    architecture names to architecture tags with the unknown tag for every
    other name. *)
Definition archMap : gmap string string :=
  list_to_map
    [("386", "01"); ("amd64", "02"); ("arm", "03"); ("arm64", "04");
     ("ppc64", "05"); ("ppc64le", "06"); ("mips", "07"); ("mipsle", "08");
     ("mips64", "09"); ("mips64le", "10"); ("s390x", "11")]%string.

Definition consts : SifConsts := {|
  HdrMagic := "SIF_MAGIC";
  HdrVersion := "01";
  HdrArchUnknown := "00";
  HdrArch386 := "01";
  HdrArchAMD64 := "02";
  HdrMagicLen := 10;
  HdrVersionLen := 3;
  HdrArchLen := 3;
  GetSIFArch := fun goarch => default "00"%string (archMap !! goarch)
|}.

Definition amd64 : Host := {| GOARCH := "amd64" |}.
Definition riscv64 : Host := {| GOARCH := "riscv64" |}.

(** Modelled from the spec: the header layout of section 6 (the struct's
    declaration is not among the sources): magic, version, architecture
    tag, container id, creation and modification time, then descriptor
    table offset, table length, descriptors in use and slot capacity, 8
    bytes each.  A descriptor is kept as its record of raw bytes. *)
Definition decodeHeader80 (bs : list byte) : Header := {|
  Magic := sub 0 10 bs;
  Version := sub 10 3 bs;
  Arch := sub 13 3 bs;
  Descroff := le_int64 (sub 48 8 bs);
  Dtotal := le_int64 (sub 72 8 bs)
|}.

Definition layout : Layout := {|
  Descriptor := list byte;
  HdrSize := 80;
  decodeHeader := decodeHeader80;
  DescrSize := 585;
  decodeDescriptor := fun bs => bs;
  zeroDescriptor := replicate 585 x00;
  maxSliceLen := 2 ^ 48 / 585
|}.

(** The bytes of a header with the given magic, architecture tag, table
    offset and slot capacity. *)
Definition headerBytes (magic arch : string) (descroff dtotal : Z) : list byte :=
  String.list_byte_of_string magic ++ [x00]
  ++ String.list_byte_of_string "01" ++ [x00]
  ++ String.list_byte_of_string arch ++ [x00]
  ++ replicate 32 x00
  ++ le_bytes 8 descroff ++ replicate 16 x00 ++ le_bytes 8 dtotal.

(** A header-only buffer of an amd64 image with 48 descriptor slots at
    offset 4096, and the same with a capacity field of 2^62 and of -1. *)
Definition headerOnly : list byte := headerBytes "SIF_MAGIC" "02" 4096 48.
Definition hugeCapacity : list byte := headerBytes "SIF_MAGIC" "02" 4096 (2 ^ 62).
Definition negativeCapacity : list byte := headerBytes "SIF_MAGIC" "02" 4096 (-1).

(** An image tagged 386 and a header-only buffer tagged arm64, both with
    valid magic and version. *)
Definition image386 : FileImage (L := layout) :=
  set_Hdr zeroFileImage (decodeHeader80 (headerBytes "SIF_MAGIC" "01" 4096 48)).
Definition bufferArm64 : list byte := headerBytes "SIF_MAGIC" "04" 4096 48.

(** A world with one file, whose magic is corrupted. *)
Definition badMagic : list byte := headerBytes "SIF_MAGIK" "02" 4096 48.

Definition world0 : World := {|
  w_fs := {[ "bad.sif"%string := mkFsFile badMagic true true ]};
  w_files := ∅;
  w_nextfile := 3;
  w_maps := ∅;
  w_brk := 1048576;
  w_pagesize := 4096
|}.

(** [LoadContainer], read-only, on the corrupted file, on the amd64
    host. *)
Definition badLoad : outcome (result (L := layout) * World) :=
  LoadContainer (C := consts) (H := amd64) (L := layout) "bad.sif" true world0.

(** A transparent instance of the primitive: a value is a pair of bytes,
    the digest prefixes the payload with the algorithm's tag, a signature
    is the key material followed by the digest, and the envelope is the
    sequence of its length-prefixed fields. *)
Definition hashTag (h : Integrity.Hash) : byte :=
  match h with
  | Integrity.SHA1 => x02
  | Integrity.SHA224 => x0b
  | Integrity.SHA256 => x08
  | Integrity.SHA384 => x09
  | Integrity.SHA512 => x0a
  end.

Definition tagHash (b : byte) : option Integrity.Hash :=
  match b with
  | x02 => Some Integrity.SHA1
  | x0b => Some Integrity.SHA224
  | x08 => Some Integrity.SHA256
  | x09 => Some Integrity.SHA384
  | x0a => Some Integrity.SHA512
  | _ => None
  end.

Fixpoint getLen (bs : list byte) : option (nat * list byte) :=
  match bs with
  | x01 :: r =>
      match getLen r with
      | Some (n, r') => Some (S n, r')
      | None => None
      end
  | x00 :: r => Some (O, r)
  | _ => None
  end.

Definition putField (l : list byte) : list byte :=
  replicate (length l) x01 ++ x00 :: l.

Definition getField (bs : list byte) : option (list byte * list byte) :=
  match getLen bs with
  | Some (n, r) =>
      if decide (n <= length r)%nat then Some (take n r, drop n r) else None
  | None => None
  end.

Definition toyArmor (payload : list byte) (sg : Integrity.Signature) : list byte :=
  putField payload
  ++ hashTag (Integrity.sig_Hash sg)
  :: putField (Integrity.IssuerKeyId sg) ++ putField (Integrity.sig_value sg).

Definition toyDearmor (bs : list byte)
    : Integrity.Error + (list byte * Integrity.Signature * list byte) :=
  match getField bs with
  | Some (payload, t :: r1) =>
      match tagHash t, getField r1 with
      | Some h, Some (issuer, r2) =>
          match getField r2 with
          | Some (v, rest) => inr (payload, Integrity.mkSignature h issuer v, rest)
          | None => inl Integrity.FormatError
          end
      | _, _ => inl Integrity.FormatError
      end
  | _ => inl Integrity.FormatError
  end.

Definition primitive : Integrity.Primitive := {|
  Integrity.Value := byte * byte;
  Integrity.encodeJSON := fun v => [fst v; snd v];
  Integrity.decodeJSON := fun bs =>
    match bs with
    | [a; b] => inr (a, b)
    | _ => inl Integrity.FormatError
    end;
  Integrity.libraryDefaultHash := Integrity.SHA256;
  Integrity.digest := fun h p => hashTag h :: p;
  Integrity.signDigest := fun key d => Integrity.secret key ++ d;
  Integrity.checkDigest := fun e d s => bool_decide (s = Integrity.public e ++ d);
  Integrity.armor := toyArmor;
  Integrity.dearmor := toyDearmor
|}.

(** A second instance, with a digest of fixed length: the algorithm's
    tag and the sum of the payload's bytes modulo 256. *)
Definition checksum (p : list byte) : byte :=
  default x00
    (Byte.of_N (foldr (fun b acc => Byte.to_N b + acc)%N 0%N p mod 256)%N).

Definition checksumPrimitive : Integrity.Primitive := {|
  Integrity.Value := byte * byte;
  Integrity.encodeJSON := fun v => [fst v; snd v];
  Integrity.decodeJSON := fun bs =>
    match bs with
    | [a; b] => inr (a, b)
    | _ => inl Integrity.FormatError
    end;
  Integrity.libraryDefaultHash := Integrity.SHA256;
  Integrity.digest := fun h p => [hashTag h; checksum p];
  Integrity.signDigest := fun key d => Integrity.secret key ++ d;
  Integrity.checkDigest := fun e d s => bool_decide (s = Integrity.public e ++ d);
  Integrity.armor := toyArmor;
  Integrity.dearmor := toyDearmor
|}.

(** A key pair of the instance, the same key locked, and a second
    entity. *)
Definition testKey : Integrity.PrivateKey :=
  {| Integrity.KeyId := [x11; x22]; Integrity.Encrypted := false;
     Integrity.secret := [x5a; x5b] |}.
Definition encryptedKey : Integrity.PrivateKey :=
  {| Integrity.KeyId := [x11; x22]; Integrity.Encrypted := true;
     Integrity.secret := [x5a; x5b] |}.
Definition testEntity : Integrity.Entity :=
  {| Integrity.PrimaryKeyId := [x11; x22]; Integrity.public := [x5a; x5b] |}.
Definition otherEntity : Integrity.Entity :=
  {| Integrity.PrimaryKeyId := [x33; x44]; Integrity.public := [x6a; x6b] |}.

(** The signature packet and the envelope of the value (1, 2) signed with
    [testKey] under the default algorithm. *)
Definition testSignature : Integrity.Signature :=
  {| Integrity.sig_Hash := Integrity.SHA256;
     Integrity.IssuerKeyId := [x11; x22];
     Integrity.sig_value := [x5a; x5b; x08; x01; x02] |}.
Definition testEnvelope : list byte := toyArmor [x01; x02] testSignature.


(** A well-formed image of two descriptor slots right behind the header,
    an image with a corrupted magic, and a header whose table offset and
    capacity are both -1. *)
Definition twoSlots : list byte :=
  headerBytes "SIF_MAGIC" "02" 80 2 ++ replicate 585 x01 ++ replicate 585 x02.
Definition imageBadMagic : FileImage (L := layout) :=
  set_Hdr zeroFileImage (decodeHeader80 badMagic).
Definition negativeOffset : list byte := headerBytes "SIF_MAGIC" "02" (-1) (-1).

(** A world with a well-formed file, an empty file, a file with a
    corrupted magic, and an empty file that may be read but not
    written. *)
Definition world1 : World := {|
  w_fs := {[ "good.sif"%string := mkFsFile twoSlots true true;
             "empty.sif"%string := mkFsFile [] true true;
             "bad.sif"%string := mkFsFile badMagic true true;
             "locked.sif"%string := mkFsFile [] true false ]};
  w_files := ∅;
  w_nextfile := 3;
  w_maps := ∅;
  w_brk := 1048576;
  w_pagesize := 4096
|}.

Definition goodLoad : outcome (result (L := layout) * World) :=
  LoadContainer (C := consts) (H := amd64) (L := layout) "good.sif" true world1.
Definition emptyLoad : outcome (result (L := layout) * World) :=
  LoadContainer (C := consts) (H := amd64) (L := layout) "empty.sif" false world1.
Definition lockedLoad : outcome (result (L := layout) * World) :=
  LoadContainer (C := consts) (H := amd64) (L := layout) "locked.sif" false world1.
Definition badLoad1 : outcome (result (L := layout) * World) :=
  LoadContainer (C := consts) (H := amd64) (L := layout) "bad.sif" true world1.

End Fixture.

(** * Theorems *)

(** ** Header validation *)

(** Case analysis on every string comparison of the goal. *)
Ltac eqb_cases :=
  repeat match goal with
         | |- context [String.eqb ?a ?b] => destruct (String.eqb_spec a b)
         end.

Section LoaderFacts.
Context `{C : SifConsts} `{H : Host} `{L : Layout}.

(** [isValidSif] reads the header only. *)
Lemma isValidSif_Hdr (f g : FileImage) (runnable : bool) :
  Hdr f = Hdr g -> isValidSif f runnable = isValidSif g runnable.
Proof. intros E. unfold isValidSif. now rewrite E. Qed.

(** X1.  Runnable validation succeeds exactly when the host is supported,
    magic and version match, and the image's tag is the host's. *)
Lemma isValidSif_runnable_iff (fimg : FileImage) :
  isValidSif fimg true = None <->
  hostSupported /\ validMagic (Hdr fimg) /\ validVersion (Hdr fimg)
  /\ archTag (Hdr fimg) = hostArch.
Proof.
  unfold isValidSif, hostSupported, validMagic, validVersion, archTag, hostArch.
  eqb_cases; simpl; split; intros; try discriminate; try tauto; try congruence.
Qed.

(** Inspection (non-runnable) validation succeeds exactly when the host is
    supported and magic and version match. *)
Lemma isValidSif_inspect_iff (fimg : FileImage) :
  isValidSif fimg false = None <->
  hostSupported /\ validMagic (Hdr fimg) /\ validVersion (Hdr fimg).
Proof.
  unfold isValidSif, hostSupported, validMagic, validVersion, hostArch.
  eqb_cases; simpl; split; intros; try discriminate; try tauto.
Qed.

(** On a supported host, an image with valid magic and version whose tag
    differs from the host's is rejected with the architecture error. *)
Lemma isValidSif_mismatch (fimg : FileImage) :
  hostSupported -> validMagic (Hdr fimg) -> validVersion (Hdr fimg) ->
  archTag (Hdr fimg) <> hostArch ->
  isValidSif fimg true = Some (ErrArch (Arch (Hdr fimg)) hostArch).
Proof.
  unfold isValidSif, hostSupported, validMagic, validVersion, archTag, hostArch.
  intros Hs Hm Hv Ha. eqb_cases; simpl; congruence.
Qed.


(** C1.  The legacy pair is not accepted: on a host whose tag is the
    amd64 one, an image with valid magic and version that is tagged 386
    is rejected by runnable validation with the architecture error, the
    comment "Assume amd64 runs i386 code" notwithstanding. *)
Theorem isValidSif_legacy_386_rejected (fimg : FileImage) :
  hostArch = HdrArchAMD64 -> hostSupported ->
  validMagic (Hdr fimg) -> validVersion (Hdr fimg) ->
  archTag (Hdr fimg) = HdrArch386 -> HdrArch386 <> HdrArchAMD64 ->
  isValidSif fimg true = Some (ErrArch (Arch (Hdr fimg)) HdrArchAMD64).
Proof.
  intros Hh Hs Hm Hv Ha Hne. rewrite <- Hh.
  apply isValidSif_mismatch; auto. rewrite Ha, Hh. exact Hne.
Qed.

(** ** Loading from a byte stream *)

(** With at least [HdrSize] bytes in the buffer, [readHeader] decodes the
    first [HdrSize] of them and leaves the reader behind them. *)
Lemma readHeader_ok (bs : list byte) :
  0 < HdrSize <= Z.of_nat (length bs) ->
  readHeader (set_Reader zeroFileImage (Some (bytes_NewReader bs))) =
  Returned
    (set_Hdr (set_Reader zeroFileImage (Some {| r_s := bs; r_i := HdrSize |}))
       (decodeHeader (take (Z.to_nat HdrSize) bs)), None).
Proof.
  intros [Hpos Hlen]. unfold readHeader, io_ReadFull. simpl.
  destruct (Z.leb_spec HdrSize 0); [lia|].
  destruct (Z.leb_spec (Z.of_nat (length bs)) 0); [lia|].
  change (Z.to_nat 0) with O. rewrite drop_0.
  destruct (Z.ltb_spec (Z.of_nat (length bs)) HdrSize); [lia|].
  reflexivity.
Qed.

(** [readHeader] returns whenever the image has a reader. *)
Lemma readHeader_returns (fimg : FileImage) (r : bytes_Reader) :
  Reader fimg = Some r ->
  exists fimg' e, readHeader fimg = Returned (fimg', e)
                  /\ is_Some (Reader fimg')
                  /\ (e = None -> exists bs, Hdr fimg' = decodeHeader bs).
Proof.
  intros Hr. unfold readHeader. rewrite Hr.
  destruct (io_ReadFull r HdrSize) as [[c|bs] r'].
  - eexists _, _. split; [reflexivity|]. split; [simpl; eauto|discriminate].
  - eexists _, _. split; [reflexivity|]. split; simpl; eauto.
Qed.

(** A capacity that [make] can allocate: [readDescriptors] returns, and
    leaves the header alone. *)
Lemma readDescriptors_returns (fimg : FileImage) (r : bytes_Reader) :
  Reader fimg = Some r ->
  0 <= Dtotal (Hdr fimg) <= maxSliceLen ->
  exists fimg' e, readDescriptors fimg = Returned (fimg', e)
                  /\ Hdr fimg' = Hdr fimg.
Proof.
  intros Hr [Hlo Hhi]. unfold readDescriptors, make_DescrArr. rewrite Hr.
  destruct (Reader_Seek r (Descroff (Hdr fimg))) as [c|r1].
  { eexists _, _. split; reflexivity. }
  simpl.
  destruct (Z.ltb_spec (Dtotal (Hdr fimg)) 0); [lia|].
  destruct (Z.ltb_spec maxSliceLen (Dtotal (Hdr fimg))); [lia|]. simpl.
  destruct (io_ReadFull r1 (Dtotal (Hdr fimg) * DescrSize)) as [[c|bs] r2];
    eexists _, _; split; reflexivity.
Qed.

(** A capacity that [make] cannot allocate, behind a table offset that
    is not negative: [readDescriptors] panics. *)
Lemma readDescriptors_panics (fimg : FileImage) (r : bytes_Reader) :
  Reader fimg = Some r ->
  0 <= Descroff (Hdr fimg) ->
  Dtotal (Hdr fimg) < 0 \/ maxSliceLen < Dtotal (Hdr fimg) ->
  readDescriptors fimg = Panicked "makeslice: len out of range".
Proof.
  intros Hr Hoff Hcap. unfold readDescriptors, make_DescrArr, Reader_Seek.
  rewrite Hr. destruct (Z.ltb_spec (Descroff (Hdr fimg)) 0); [lia|]. simpl.
  destruct (Z.ltb_spec (Dtotal (Hdr fimg)) 0),
           (Z.ltb_spec maxSliceLen (Dtotal (Hdr fimg))); simpl; try reflexivity; lia.
Qed.

(** The buffer ends before the end of the descriptor table: nothing is
    decoded and [DescrArr] is left empty, whether the seek fails, the read
    fails, or there is no slot to read. *)
Lemma readDescriptors_short (fimg : FileImage) (r : bytes_Reader) :
  Reader fimg = Some r ->
  DescrArr fimg = [] ->
  0 < DescrSize ->
  0 <= Dtotal (Hdr fimg) <= maxSliceLen ->
  Z.of_nat (length (r_s r)) < Descroff (Hdr fimg) + Dtotal (Hdr fimg) * DescrSize ->
  exists fimg' e, readDescriptors fimg = Returned (fimg', e)
                  /\ Hdr fimg' = Hdr fimg /\ DescrArr fimg' = [].
Proof.
  intros Hr Hnil Hsz [Hlo Hhi] Hshort.
  unfold readDescriptors, make_DescrArr, Reader_Seek. rewrite Hr.
  destruct (Z.ltb_spec (Descroff (Hdr fimg)) 0).
  { eexists _, _. split; [reflexivity|]. split; [reflexivity|assumption]. }
  simpl.
  destruct (Z.ltb_spec (Dtotal (Hdr fimg)) 0); [lia|].
  destruct (Z.ltb_spec maxSliceLen (Dtotal (Hdr fimg))); [lia|]. simpl.
  unfold io_ReadFull. simpl.
  destruct (Z.leb_spec (Dtotal (Hdr fimg) * DescrSize) 0).
  { assert (Dtotal (Hdr fimg) = 0) as -> by nia.
    eexists _, _. split; [reflexivity|]. split; reflexivity. }
  destruct (Z.leb_spec (Z.of_nat (length (r_s r))) (Descroff (Hdr fimg))).
  { eexists _, _. split; [reflexivity|]. split; reflexivity. }
  rewrite length_drop.
  destruct (Z.ltb_spec
              (Z.of_nat (length (r_s r) - Z.to_nat (Descroff (Hdr fimg))))
              (Dtotal (Hdr fimg) * DescrSize)); [|lia].
  eexists _, _. split; [reflexivity|]. split; reflexivity.
Qed.

(** [LoadContainerReader] on a buffer that holds a whole header: the
    steps that remain once the header is decoded. *)
Lemma LoadContainerReader_decoded (bs : list byte) :
  0 < HdrSize <= Z.of_nat (length bs) ->
  LoadContainerReader (Some (bytes_NewReader bs)) =
  match isValidSif (headerRead bs) false with
  | Some err => Returned (headerRead bs, Some err)
  | None =>
      match readDescriptors (headerRead bs) with
      | Panicked msg => Panicked msg
      | Returned (fimg, _) => Returned (fimg, None)
      end
  end.
Proof.
  intros Hlen. unfold LoadContainerReader. rewrite (readHeader_ok bs Hlen).
  reflexivity.
Qed.

(** X7.  The degraded mode: a validated header in a buffer that ends
    before the end of the descriptor table, with a capacity that can be
    allocated, loads without error, with the header populated and no
    descriptor. *)
Lemma LoadContainerReader_short_buffer (bs : list byte) :
  0 < HdrSize <= Z.of_nat (length bs) ->
  hostSupported -> validMagic (headerOf bs) -> validVersion (headerOf bs) ->
  0 < DescrSize ->
  0 <= Dtotal (headerOf bs) <= maxSliceLen ->
  Z.of_nat (length bs) < Descroff (headerOf bs) + Dtotal (headerOf bs) * DescrSize ->
  exists fimg, LoadContainerReader (Some (bytes_NewReader bs)) = Returned (fimg, None)
               /\ Hdr fimg = headerOf bs /\ DescrArr fimg = [].
Proof.
  intros Hlen Hs Hm Hv Hsz Hcap Hshort.
  rewrite (LoadContainerReader_decoded bs Hlen).
  assert (isValidSif (headerRead bs) false = None) as ->
    by (apply isValidSif_inspect_iff; auto).
  destruct (readDescriptors_short (headerRead bs) {| r_s := bs; r_i := HdrSize |})
    as (fimg' & e & -> & Hh & Hd); auto.
  exists fimg'. auto.
Qed.

(** C5.  A buffer whose header decodes and validates, whose table offset
    is not negative and whose capacity field is negative or beyond what
    [make] allocates: [LoadContainerReader] returns no [FileImage], the
    allocation of the descriptor slots panics. *)
Theorem LoadContainerReader_capacity_panic (bs : list byte) :
  0 < HdrSize <= Z.of_nat (length bs) ->
  hostSupported -> validMagic (headerOf bs) -> validVersion (headerOf bs) ->
  0 <= Descroff (headerOf bs) ->
  Dtotal (headerOf bs) < 0 \/ maxSliceLen < Dtotal (headerOf bs) ->
  LoadContainerReader (Some (bytes_NewReader bs)) =
  Panicked "makeslice: len out of range".
Proof.
  intros Hlen Hs Hm Hv Hoff Hcap.
  rewrite (LoadContainerReader_decoded bs Hlen).
  assert (isValidSif (headerRead bs) false = None) as ->
    by (apply isValidSif_inspect_iff; auto).
  rewrite (readDescriptors_panics (headerRead bs) {| r_s := bs; r_i := HdrSize |});
    auto.
Qed.

(** C6, as amended.  On a supported host, a container with valid magic
    and version whose tag differs from the host's fails runnable
    validation with the architecture error and passes inspection
    validation; with a capacity that can be allocated,
    [LoadContainerReader] loads it without error. *)
Theorem mismatch_fails_runnable_passes_inspection (bs : list byte) :
  hostSupported ->
  0 < HdrSize <= Z.of_nat (length bs) ->
  validMagic (headerOf bs) -> validVersion (headerOf bs) ->
  archTag (headerOf bs) <> hostArch ->
  0 <= Dtotal (headerOf bs) <= maxSliceLen ->
  (forall fimg, Hdr fimg = headerOf bs ->
     isValidSif fimg true = Some (ErrArch (Arch (headerOf bs)) hostArch)
     /\ isValidSif fimg false = None)
  /\ exists fimg, LoadContainerReader (Some (bytes_NewReader bs)) = Returned (fimg, None)
                  /\ Hdr fimg = headerOf bs.
Proof.
  intros Hs Hlen Hm Hv Ha Hcap. split.
  - intros fimg Hh. split.
    + rewrite <- Hh. apply isValidSif_mismatch; rewrite ?Hh; auto.
    + apply isValidSif_inspect_iff. rewrite Hh. auto.
  - rewrite (LoadContainerReader_decoded bs Hlen).
    assert (isValidSif (headerRead bs) false = None) as ->
      by (apply isValidSif_inspect_iff; auto).
    destruct (readDescriptors_returns (headerRead bs) {| r_s := bs; r_i := HdrSize |})
      as (fimg' & e & -> & Hh); auto.
    exists fimg'. auto.
Qed.

(** C10.  On a host whose architecture has no tag, [isValidSif] returns
    the unsupported-host error for every image, runnable or not, and
    [LoadContainerReader] returns an error for every buffer. *)
Theorem unsupported_host_rejects_everything :
  hostArch = HdrArchUnknown ->
  (forall fimg runnable, isValidSif fimg runnable = Some (ErrGoarch GOARCH))
  /\ (forall b, exists fimg err,
        LoadContainerReader (Some b) = Returned (fimg, Some err)).
Proof.
  intros Hu.
  assert (forall fimg runnable, isValidSif fimg runnable = Some (ErrGoarch GOARCH)) as Hv.
  { intros fimg runnable. unfold isValidSif. fold hostArch. rewrite Hu.
    now rewrite String.eqb_refl. }
  split; [exact Hv|].
  intros b. unfold LoadContainerReader.
  destruct (readHeader_returns (set_Reader zeroFileImage (Some b)) b eq_refl)
    as (fimg' & e & -> & _ & _).
  destruct e as [err|]; [eauto|]. rewrite Hv. eauto.
Qed.

End LoaderFacts.

(** ** The mapping over the life of an image *)

Section Lifecycle.
Context `{C : SifConsts} `{H : Host} `{L : Layout}.

(** A successful [syscall.Mmap] registers the slice it returns and leaves
    the open files alone. *)
Lemma syscall_Mmap_ok fd off len prot flags (w w' : World) (data : Slice) :
  syscall_Mmap fd off len prot flags w = (inr data, w') ->
  mappingActive w' data /\ w_files w' = w_files w.
Proof.
  unfold syscall_Mmap, mappingActive.
  destruct (Z.leb_spec len 0); [discriminate|].
  destruct (w_files w !! fd) as [f|]; [|discriminate].
  intros Hm.
  assert (data = {| s_base := w_brk w; s_len := len |}
          /\ w_maps w' = <[w_brk w :=
               take (Z.to_nat len)
                 (of_data f ++ replicate (Z.to_nat len - length (of_data f)) x00)]>
               (w_maps w)
          /\ w_files w' = w_files w) as (-> & Hmaps & Hfiles).
  { destruct prot, flags, (of_rdwr f); inversion Hm; auto. }
  simpl. split; [|exact Hfiles]. split; [lia|].
  eexists. rewrite Hmaps, lookup_insert_eq. split; [reflexivity|].
  rewrite length_take, length_app, length_replicate. lia.
Qed.

(** When [mapFile] succeeds, [Filedata] is an active mapping, the file
    behind [Fp] is open, and a reader stands on the mapped data. *)
Lemma mapFile_ok (fimg fimg' : FileImage) (rdonly : bool) (w w' : World) :
  mapFile fimg rdonly w = ((fimg', None), w') ->
  mappingActive w' (Filedata fimg')
  /\ Fp fimg' = Fp fimg
  /\ (exists fp, Fp fimg = Some fp /\ is_Some (w_files w' !! fp))
  /\ is_Some (Reader fimg').
Proof.
  unfold mapFile.
  destruct (File_Stat (Fp fimg) w) as [c|sz] eqn:Hstat; [discriminate|].
  destruct (to_int64 (to_int (nextAligned sz (w_pagesize w))) <? sz); [discriminate|].
  destruct (syscall_Mmap _ _ _ _ _ w) as [[c|data] w1] eqn:Hmm; [discriminate|].
  intros Heq. inversion Heq; subst; clear Heq. simpl.
  destruct (syscall_Mmap_ok _ _ _ _ _ _ _ _ Hmm) as [Hact Hfiles].
  split; [exact Hact|]. split; [reflexivity|]. split; [|eauto].
  unfold File_Stat in Hstat. destruct (Fp fimg) as [fp|]; [|discriminate].
  exists fp. split; [reflexivity|]. rewrite Hfiles.
  destruct (w_files w !! fp); [eauto|discriminate].
Qed.

(** The errors of [mapFile] are none of the later steps'. *)
Lemma mapFile_error (fimg fimg' : FileImage) (rdonly : bool) (w w' : World) (e : error) :
  mapFile fimg rdonly w = ((fimg', Some e), w') -> laterStepError e = false.
Proof.
  unfold mapFile.
  destruct (File_Stat (Fp fimg) w) as [c|sz]; [intros [= <- <-]; reflexivity|].
  destruct (to_int64 (to_int (nextAligned sz (w_pagesize w))) <? sz);
    [intros [= <- <-]; reflexivity|].
  destruct (syscall_Mmap _ _ _ _ _ w) as [[c|data] w1];
    intros Heq; inversion Heq; reflexivity.
Qed.

(** [readHeader] and [readDescriptors] touch neither [Fp] nor
    [Filedata], and keep a reader in place. *)
Lemma readHeader_frame (fimg fimg' : FileImage) (e : option error) :
  readHeader fimg = Returned (fimg', e) ->
  Fp fimg' = Fp fimg /\ Filedata fimg' = Filedata fimg /\ is_Some (Reader fimg').
Proof.
  unfold readHeader. destruct (Reader fimg) as [r|]; [|discriminate].
  destruct (io_ReadFull r HdrSize) as [[c|bs] r'];
    intros [= <- <-]; simpl; eauto.
Qed.

Lemma readDescriptors_frame (fimg fimg' : FileImage) (e : option error) :
  readDescriptors fimg = Returned (fimg', e) ->
  Fp fimg' = Fp fimg /\ Filedata fimg' = Filedata fimg.
Proof.
  unfold readDescriptors. destruct (Reader fimg) as [r|]; [|discriminate].
  destruct (Reader_Seek r (Descroff (Hdr fimg))) as [c|r1];
    [intros [= <- <-]; auto|].
  simpl. destruct (make_DescrArr (Dtotal (Hdr fimg))) as [arr|msg]; [|discriminate].
  simpl. destruct (io_ReadFull r1 _) as [[c|bs] r2];
    intros [= <- <-]; simpl; auto.
Qed.

(** Once the mapping is established, an error of a later step is returned
    with the mapping still in place. *)
Lemma loadSteps_later_error (fimg0 fimg : FileImage) (rdonly : bool)
    (w w' : World) (err : error) :
  loadSteps fimg0 rdonly w = Returned ((fimg, Some err), w') ->
  laterStepError err = true ->
  leftMapped fimg w' /\ Fp fimg = Fp fimg0.
Proof.
  unfold loadSteps, leftMapped.
  destruct (mapFile fimg0 rdonly w) as [[fimg1 [e1|]] w1] eqn:Hmap.
  { intros Heq Hlater. simplify_eq.
    rewrite (mapFile_error _ _ _ _ _ _ Hmap) in Hlater. discriminate. }
  destruct (mapFile_ok _ _ _ _ _ Hmap) as (Hact & Hfp & (fp & Hfp0 & Hopen) & _).
  destruct (readHeader fimg1) as [[fimg2 e2]|msg] eqn:Hrh; [|discriminate].
  destruct (readHeader_frame _ _ _ Hrh) as (Hfp2 & Hdata2 & _).
  assert (forall f, Fp f = Fp fimg2 -> Filedata f = Filedata fimg2 ->
            (mappingActive w1 (Filedata f)
             /\ exists fp, Fp f = Some fp /\ is_Some (w_files w1 !! fp))
            /\ Fp f = Fp fimg0) as Hkeep.
  { intros f Hf Hd. rewrite Hd, Hdata2, Hf, Hfp2, Hfp. eauto. }
  destruct e2 as [e2|].
  { intros Heq _. simplify_eq. apply Hkeep; reflexivity. }
  destruct (isValidSif fimg2 true) as [e3|].
  { intros Heq _. simplify_eq. apply Hkeep; reflexivity. }
  destruct (readDescriptors fimg2) as [[fimg4 e4]|msg] eqn:Hrd; [|discriminate].
  destruct (readDescriptors_frame _ _ _ Hrd) as (Hfp4 & Hdata4).
  intros Heq _. simplify_eq. apply Hkeep; assumption.
Qed.

(** C2, as amended.  When [LoadContainer] or [LoadContainerFp] returns
    the error of a step that follows the mapping (header read, header
    validation, descriptor read), the mapping has not been released: the
    image returned beside the error holds the active mapping and the open
    file. *)
Theorem failed_load_keeps_mapping :
  (forall filename rdonly w fimg err w',
     LoadContainer filename rdonly w = Returned ((fimg, Some err), w') ->
     laterStepError err = true -> leftMapped fimg w')
  /\ (forall fp rdonly w fimg err w',
        LoadContainerFp fp rdonly w = Returned ((fimg, Some err), w') ->
        laterStepError err = true -> leftMapped fimg w').
Proof.
  split.
  - intros filename rdonly w fimg err w'. unfold LoadContainer.
    destruct (if rdonly then os_Open filename w else os_OpenFile filename true w)
      as [[c|fp] w1].
    + intros Heq. simplify_eq. destruct rdonly; discriminate.
    + intros Hl Hlater. exact (proj1 (loadSteps_later_error _ _ _ _ _ _ Hl Hlater)).
  - intros fp rdonly w fimg err w'. unfold LoadContainerFp.
    destruct fp as [fp|].
    + intros Hl Hlater. exact (proj1 (loadSteps_later_error _ _ _ _ _ _ Hl Hlater)).
    + intros Heq. simplify_eq. discriminate.
Qed.

(** The image a failed load returns can still be released by its caller:
    [UnloadContainer] on it unmaps and closes without error. *)
Lemma leftMapped_unload (fimg : FileImage) (w : World) :
  leftMapped fimg w ->
  exists w', UnloadContainer (Some fimg) w = Returned (None, w')
             /\ w_maps w' = delete (s_base (Filedata fimg)) (w_maps w).
Proof.
  intros [[Hpos (b & Hb & Hlen)] (fp & Hfp & [f Hf])].
  unfold UnloadContainer, unmapFile, syscall_Munmap, File_Close. rewrite Hfp.
  destruct (Z.leb_spec (s_len (Filedata fimg)) 0); [lia|].
  rewrite Hb. rewrite (proj2 (Z.eqb_eq _ _) Hlen). simpl. rewrite Hf.
  eexists. split; reflexivity.
Qed.

(** On a nil receiver the first field access panics. *)
Lemma UnloadContainer_nil (w : World) :
  ~ returns (UnloadContainer None w).
Proof. intros []. Qed.

(** C7.  [UnloadContainer] on an image returns, in every world: a second
    call on the same image, whatever the first did, does not panic.
    After a first call that released a file-backed image, the second
    returns the unmap error and changes nothing. *)
Theorem second_unload_returns (fimg : FileImage) (w : World) :
  exists e1 w1,
    UnloadContainer (Some fimg) w = Returned (e1, w1)
    /\ (forall w2, returns (UnloadContainer (Some fimg) w2))
    /\ (e1 = None -> Fp fimg <> None ->
        UnloadContainer (Some fimg) w1 = Returned (Some ErrUnmap, w1)).
Proof.
  assert (forall w0, exists e w', UnloadContainer (Some fimg) w0 = Returned (e, w'))
    as Htotal.
  { intros w0. unfold UnloadContainer. destruct (Fp fimg); [|eauto].
    destruct (unmapFile fimg w0) as [[e|] w']; [eauto|].
    destruct (File_Close _ w') as [[c|] w'']; eauto. }
  destruct (Htotal w) as (e1 & w1 & H1).
  exists e1, w1. split; [exact H1|]. split.
  { intros w2. destruct (Htotal w2) as (e2 & w2' & ->). exact I. }
  intros -> Hfp. revert H1. unfold UnloadContainer, unmapFile, syscall_Munmap.
  destruct (Fp fimg) as [fp|]; [|congruence].
  destruct (Z.leb_spec (s_len (Filedata fimg)) 0); [discriminate|].
  destruct (w_maps w !! s_base (Filedata fimg)) as [b|] eqn:Hb; [|discriminate].
  destruct (Z.of_nat (length b) =? s_len (Filedata fimg)); [|discriminate].
  simpl. unfold File_Close. simpl.
  destruct (w_files w !! fp) as [f|]; [|discriminate].
  intros [= <-]. simpl. now rewrite lookup_delete_eq.
Qed.

End Lifecycle.

(** ** The integrity engine *)

Section EngineFacts.
Import Integrity.
Context `{P : Primitive}.

(** A keyring that holds [e] under a key id of its own resolves that id
    to [e]. *)
Lemma resolveIssuer_holds (kr : list Entity) (e : Entity) :
  keyringHolds kr e -> resolveIssuer kr (PrimaryKeyId e) = Some e.
Proof.
  unfold keyringHolds, resolveIssuer. intros [Hin Hnd].
  induction kr as [|a kr IH]; [destruct Hin|].
  simpl in *. apply NoDup_cons in Hnd as [Hnotin Hnd].
  destruct Hin as [->|Hin].
  - now rewrite bool_decide_eq_true_2.
  - rewrite bool_decide_eq_false_2; [auto|].
    intros Heq. apply Hnotin. rewrite Heq.
    apply list_elem_of_In, in_map, Hin.
Qed.

(** The empty keyring resolves nothing. *)
Lemma resolveIssuer_nil (id : list byte) : resolveIssuer [] id = None.
Proof. reflexivity. Qed.

(** Changing one byte of a payload gives another payload. *)
Lemma single_byte_change (payload : list byte) (i : nat) (b b' : byte) :
  payload !! i = Some b -> b' <> b -> <[i := b']> payload <> payload.
Proof.
  intros Hb Hne Heq. apply Hne.
  assert (<[i := b']> payload !! i = Some b') as Hb'
    by (apply list_lookup_insert_eq; eapply lookup_lt_Some; eauto).
  rewrite Heq in Hb'. congruence.
Qed.

(** C3.  Signing a value with a decrypted key, under the default or any
    of the five hash algorithms, and verifying the envelope against a
    keyring that holds the signer's key succeeds: it returns the signer,
    the value and no trailing byte. *)
Theorem sign_then_verify (v : Value) (h : option Hash) (key : PrivateKey)
    (e : Entity) (kr : list Entity) :
  envelopeRoundTrip -> jsonRoundTrip ->
  Encrypted key = false -> signerOf key e -> keyringHolds kr e ->
  exists env,
    signAndEncodeJSON v key (mkConfig h) = inr env
    /\ verifyAndDecodeJSON env kr = inr (e, v, []).
Proof.
  intros Henv Hjson Hdec [Hid Hchk] Hkr.
  unfold signAndEncodeJSON. rewrite Hdec. eexists. split; [reflexivity|].
  unfold verifyAndDecodeJSON. rewrite Henv. simpl.
  rewrite <- Hid, (resolveIssuer_holds kr e Hkr), Hchk, Hjson. reflexivity.
Qed.

(** No digest of fixed length tells all payloads apart: under each
    algorithm two different payloads have the same digest.  So no such
    digest is [collisionFree], and which replacements of a payload the
    signature detects depends on the digests of the two. *)
Lemma fixed_length_digest_collides (n : nat) (h : Hash) :
  fixedLength n -> exists p p', p <> p' /\ digest h p = digest h p'.
Proof.
  intros Hlen.
  pose (f := fun x : { l : list byte | length l = S n } =>
               (digest h (`x) ↾ Hlen h (`x) : { l : list byte | length l = n })).
  destruct (finite_pigeonhole f) as (x1 & x2 & Hne & Heq).
  { rewrite !list_card. change (card byte) with 256%nat.
    apply Nat.pow_lt_mono_r; lia. }
  exists (`x1), (`x2). split; [|exact (f_equal proj1_sig Heq)].
  intros Hp. apply Hne. now apply (sig_eq_pi _).
Qed.

Lemma fixed_length_not_collisionFree (n : nat) :
  fixedLength n -> ~ collisionFree.
Proof.
  intros Hlen Hcf.
  destruct (fixed_length_digest_collides n SHA256 Hlen) as (p & p' & Hne & Heq).
  apply Hne, (Hcf SHA256), Heq.
Qed.


(** C8.  Whatever envelope the input holds, correctly signed or not,
    verification against the empty keyring fails with
    [UnknownIssuerError]. *)
Theorem empty_keyring_unknown_issuer (data payload : list byte) (sg : Signature) :
  dearmor data = inr (payload, sg, []) ->
  verifyAndDecodeJSON data [] = inl UnknownIssuerError.
Proof.
  intros Hparse. unfold verifyAndDecodeJSON. rewrite Hparse.
  now rewrite resolveIssuer_nil.
Qed.

(** C9.  Signing with a key that is still encrypted fails with
    [KeyError], whatever the value and the hash algorithm, and yields no
    envelope. *)
Theorem encrypted_key_KeyError (v : Value) (key : PrivateKey) (config : Config) :
  Encrypted key = true -> signAndEncodeJSON v key config = inl KeyError.
Proof.
  intros Henc. unfold signAndEncodeJSON. now rewrite Henc.
Qed.

End EngineFacts.

(** ** The theorems on explicit inputs *)

Section Examples.
Import Fixture.

(** On the amd64 host, the image tagged 386 is rejected. *)
Lemma isValidSif_legacy_386_rejected_witness :
  hostArch (C := consts) (H := amd64) = "02"%string
  /\ archTag (C := consts) (Hdr image386) = "01"%string
  /\ isValidSif (C := consts) (H := amd64) image386 true
     = Some (ErrArch (String.list_byte_of_string "01" ++ [x00]) "02").
Proof.
  split; [reflexivity|]. split; [reflexivity|].
  apply (isValidSif_legacy_386_rejected (C := consts) (H := amd64) image386);
    vm_compute; congruence.
Defined.

(** On the amd64 host, the header-only buffers with capacity 2^62 and
    with capacity -1, both ending before their descriptor table, make
    [LoadContainerReader] panic; with capacity 48 the buffer loads, with
    no descriptor. *)
Lemma LoadContainerReader_capacity_panic_witness :
  (Dtotal (headerOf (L := layout) hugeCapacity) = 2 ^ 62
   /\ Z.of_nat (length hugeCapacity) < Descroff (headerOf (L := layout) hugeCapacity)
   /\ LoadContainerReader (C := consts) (H := amd64) (L := layout)
        (Some (bytes_NewReader hugeCapacity))
      = Panicked "makeslice: len out of range")
  /\ (Dtotal (headerOf (L := layout) negativeCapacity) = -1
      /\ LoadContainerReader (C := consts) (H := amd64) (L := layout)
           (Some (bytes_NewReader negativeCapacity))
         = Panicked "makeslice: len out of range").
Proof.
  split; (split; [reflexivity|]); [split; [reflexivity|]|];
    apply (LoadContainerReader_capacity_panic (C := consts) (H := amd64) (L := layout));
    vm_compute; intuition congruence.
Defined.

Lemma LoadContainerReader_headerOnly :
  LoadContainerReader (C := consts) (H := amd64) (L := layout)
    (Some (bytes_NewReader headerOnly))
  = Returned (set_Reader (headerRead (L := layout) headerOnly)
                (Some {| r_s := headerOnly; r_i := 4096 |}), None).
Proof. reflexivity. Qed.

(** C6, counterexample.  On a host without architecture tag, a container
    with valid magic and version, tagged amd64, does not pass inspection
    validation, and [LoadContainerReader] returns the error. *)
Lemma inspection_fails_on_unsupported_host :
  validMagic (C := consts) (headerOf (L := layout) headerOnly)
  /\ validVersion (C := consts) (headerOf (L := layout) headerOnly)
  /\ archTag (C := consts) (headerOf (L := layout) headerOnly)
     <> hostArch (C := consts) (H := riscv64)
  /\ isValidSif (C := consts) (H := riscv64) (headerRead (L := layout) headerOnly) false
     = Some (ErrGoarch "riscv64")
  /\ LoadContainerReader (C := consts) (H := riscv64) (L := layout)
       (Some (bytes_NewReader headerOnly))
     = Returned (headerRead (L := layout) headerOnly, Some (ErrGoarch "riscv64")).
Proof.
  split; [reflexivity|]. split; [reflexivity|]. split; [vm_compute; congruence|].
  split; reflexivity.
Qed.

(** On the amd64 host, the container tagged arm64 fails runnable
    validation, passes inspection validation and loads. *)
Lemma mismatch_fails_runnable_passes_inspection_witness :
  (forall fimg : FileImage (L := layout), Hdr fimg = headerOf (L := layout) bufferArm64 ->
     isValidSif (C := consts) (H := amd64) fimg true
     = Some (ErrArch (String.list_byte_of_string "04" ++ [x00]) "02")
     /\ isValidSif (C := consts) (H := amd64) fimg false = None)
  /\ exists fimg, LoadContainerReader (C := consts) (H := amd64) (L := layout)
                    (Some (bytes_NewReader bufferArm64)) = Returned (fimg, None)
                  /\ Hdr fimg = headerOf (L := layout) bufferArm64.
Proof.
  apply (mismatch_fails_runnable_passes_inspection (C := consts) (H := amd64) (L := layout)
           bufferArm64);
    vm_compute; intuition congruence.
Defined.

(** The riscv64 host has no tag: every image and every buffer is
    rejected there. *)
Lemma unsupported_host_rejects_everything_witness :
  (forall (fimg : FileImage (L := layout)) runnable,
     isValidSif (C := consts) (H := riscv64) fimg runnable = Some (ErrGoarch "riscv64"))
  /\ (forall b, exists fimg err,
        LoadContainerReader (C := consts) (H := riscv64) (L := layout) (Some b)
        = Returned (fimg, Some err)).
Proof.
  apply (unsupported_host_rejects_everything (C := consts) (H := riscv64) (L := layout)).
  reflexivity.
Defined.

(** What the load of the corrupted file returns: the magic error, a
    one-page slice at the first free address, and a world in which that
    page is mapped. *)
Lemma badLoad_observed :
  match badLoad with
  | Returned ((fimg, err), w') =>
      (err, Filedata fimg, length <$> w_maps w' !! 1048576)
  | Panicked _ => (None, nilSlice, None)
  end
  = (Some (ErrMagic (sub 0 10 badMagic) "SIF_MAGIC"),
     {| s_base := 1048576; s_len := 4096 |}, Some 4096%nat).
Proof. vm_compute. reflexivity. Qed.

(** C2, counterexample.  [LoadContainer] on the file with the corrupted
    magic returns the magic error, and the mapping it made, at an address
    where the world had none before, is still there on return. *)
Lemma bad_magic_load_leaves_mapping :
  exists fimg w',
    LoadContainer (C := consts) (H := amd64) (L := layout) "bad.sif" true world0
    = Returned ((fimg, Some (ErrMagic (sub 0 10 badMagic) "SIF_MAGIC")), w')
    /\ w_maps world0 !! s_base (Filedata fimg) = None
    /\ is_Some (w_maps w' !! s_base (Filedata fimg)).
Proof.
  pose proof badLoad_observed as Hobs. unfold badLoad in Hobs.
  destruct (LoadContainer _ _ world0) as [[[fimg err] w']|msg]; simplify_eq.
  exists fimg, w'. split; [reflexivity|].
  replace (Filedata fimg) with {| s_base := 1048576; s_len := 4096 |}. simpl.
  split; [reflexivity|].
  destruct (w_maps w' !! 1048576); [eauto|discriminate].
Qed.

(** The failed load of the file with the corrupted magic leaves its
    mapping active and its file open. *)
Lemma failed_load_keeps_mapping_witness :
  exists fimg w',
    LoadContainer (C := consts) (H := amd64) (L := layout) "bad.sif" true world0
    = Returned ((fimg, Some (ErrMagic (sub 0 10 badMagic) "SIF_MAGIC")), w')
    /\ leftMapped fimg w'.
Proof.
  pose proof badLoad_observed as Hobs. unfold badLoad in Hobs.
  destruct (LoadContainer _ _ world0) as [[[fimg err] w']|msg] eqn:Hload;
    simplify_eq.
  exists fimg, w'. split; [reflexivity|].
  exact (proj1 (failed_load_keeps_mapping (C := consts) (H := amd64) (L := layout))
           _ _ _ _ _ _ Hload eq_refl).
Defined.

(** *** The transparent primitive meets the engine's assumptions *)

Lemma getLen_put (n : nat) (r : list byte) :
  getLen (replicate n x01 ++ x00 :: r) = Some (n, r).
Proof. induction n as [|n IH]; simpl; [reflexivity|]. now rewrite IH. Qed.

Lemma getField_put (l r : list byte) :
  getField (putField l ++ r) = Some (l, r).
Proof.
  unfold getField, putField. rewrite <- app_assoc. simpl.
  rewrite getLen_put. rewrite decide_True by (rewrite length_app; lia).
  now rewrite take_app_length, drop_app_length.
Qed.

Lemma tagHash_hashTag (h : Integrity.Hash) : tagHash (hashTag h) = Some h.
Proof. destruct h; reflexivity. Qed.

Lemma primitive_envelopeRoundTrip : Integrity.envelopeRoundTrip (P := primitive).
Proof.
  intros payload [h issuer v]. simpl. unfold toyDearmor, toyArmor. simpl.
  rewrite getField_put, tagHash_hashTag, getField_put.
  rewrite <- (app_nil_r (putField v)), getField_put. reflexivity.
Qed.

Lemma primitive_jsonRoundTrip : Integrity.jsonRoundTrip (P := primitive).
Proof. intros [a b]. reflexivity. Qed.

Lemma testKey_signerOf : Integrity.signerOf (P := primitive) testKey testEntity.
Proof. split; [reflexivity|]. intros d. simpl. now apply bool_decide_eq_true_2. Qed.

Lemma testKey_unforgeable : Integrity.unforgeable (P := primitive) testKey testEntity.
Proof.
  intros d d' Hchk. simpl in Hchk. apply bool_decide_eq_true_1 in Hchk.
  now simplify_eq.
Qed.

Lemma keyring_holds_testEntity :
  Integrity.keyringHolds [otherEntity; testEntity] testEntity.
Proof.
  split; [right; left; reflexivity|].
  apply (bool_decide_unpack _). vm_compute. exact I.
Qed.

(** Signing the value (1, 2) under SHA-384 with the test key and
    verifying against a keyring of two entities gives back the signer
    and the value. *)
Lemma sign_then_verify_witness :
  exists env,
    Integrity.signAndEncodeJSON (P := primitive) (x01, x02) testKey
      (Integrity.mkConfig (Some Integrity.SHA384)) = inr env
    /\ Integrity.verifyAndDecodeJSON (P := primitive) env [otherEntity; testEntity]
       = inr (testEntity, (x01, x02), []).
Proof.
  apply (sign_then_verify (P := primitive) (x01, x02) (Some Integrity.SHA384)
           testKey testEntity [otherEntity; testEntity]
           primitive_envelopeRoundTrip primitive_jsonRoundTrip eq_refl
           testKey_signerOf keyring_holds_testEntity).
Defined.

(** The instance with the checksum digest meets the engine's
    assumptions on envelope and signature, and its digest has length
    2. *)
Lemma checksum_fixedLength : Integrity.fixedLength (P := checksumPrimitive) 2.
Proof. intros h p. reflexivity. Qed.






(** The correctly signed envelope of (1, 2) against the empty keyring. *)
Lemma empty_keyring_unknown_issuer_witness :
  Integrity.verifyAndDecodeJSON (P := primitive) testEnvelope []
  = inl Integrity.UnknownIssuerError.
Proof.
  exact (empty_keyring_unknown_issuer (P := primitive) testEnvelope [x01; x02]
           testSignature (primitive_envelopeRoundTrip [x01; x02] testSignature)).
Defined.

(** Signing (1, 2) under SHA-512 with the locked key. *)
Lemma encrypted_key_KeyError_witness :
  Integrity.Encrypted encryptedKey = true
  /\ Integrity.signAndEncodeJSON (P := primitive) (x01, x02) encryptedKey
       (Integrity.mkConfig (Some Integrity.SHA512)) = inl Integrity.KeyError.
Proof.
  split; [reflexivity|].
  exact (encrypted_key_KeyError (P := primitive) (x01, x02) encryptedKey
           (Integrity.mkConfig (Some Integrity.SHA512)) eq_refl).
Defined.

End Examples.

(** * Further properties of the loader *)

(** ** Validation *)

Section ValidationMore.
Context `{C : SifConsts} `{H : Host} `{L : Layout}.

(** X2.  The first architecture test of [isValidSif] decides nothing:
    wherever it rejects, the test that follows rejects with the same
    error, so [isValidSif] is the function without it. *)
Theorem isValidSif_legacy_test_redundant (fimg : FileImage) (runnable : bool) :
  isValidSif fimg runnable = isValidSif_strict fimg runnable.
Proof.
  unfold isValidSif, isValidSif_strict.
  destruct runnable; eqb_cases; simpl; congruence.
Qed.

(** X3.  An error of inspection validation is the error of runnable
    validation too: asking for runnable never lets a header through that
    inspection rejects, nor changes what is reported for it. *)
Theorem inspection_error_is_runnable_error (fimg : FileImage) (e : error) :
  isValidSif fimg false = Some e -> isValidSif fimg true = Some e.
Proof.
  unfold isValidSif. eqb_cases; simpl; congruence.
Qed.

(** Every error of [isValidSif] is one of the later steps'. *)
Lemma isValidSif_error_later (fimg : FileImage) (runnable : bool) (e : error) :
  isValidSif fimg runnable = Some e -> laterStepError e = true.
Proof.
  unfold isValidSif. destruct runnable; eqb_cases; simpl; intros [= <-]; reflexivity.
Qed.

(** What a header that passed runnable validation satisfies. *)
Lemma isValidSif_runnable_valid (fimg : FileImage) :
  isValidSif fimg true = None ->
  hostSupported /\ validMagic (Hdr fimg) /\ validVersion (Hdr fimg)
  /\ archTag (Hdr fimg) = hostArch.
Proof.
  unfold isValidSif, hostSupported, validMagic, validVersion, archTag, hostArch.
  eqb_cases; simpl; intros; try discriminate; auto.
Qed.

End ValidationMore.

(** ** Loading from a byte stream, continued *)

Section ReaderMore.
Context `{C : SifConsts} `{H : Host} `{L : Layout}.

Lemma decodeDescriptors_length (n : nat) (bs : list byte) :
  length (decodeDescriptors n bs) = n.
Proof. revert bs. induction n as [|n IH]; intros bs; simpl; [|rewrite IH]; reflexivity. Qed.

(** Slot [i] of a decoded table comes from the [i]-th run of [DescrSize]
    bytes. *)
Lemma decodeDescriptors_lookup (n i : nat) (bs : list byte) :
  (i < n)%nat ->
  decodeDescriptors n bs !! i
  = Some (decodeDescriptor
            (take (Z.to_nat DescrSize) (drop (i * Z.to_nat DescrSize) bs))).
Proof.
  revert i bs. induction n as [|n IH]; intros i bs Hi; [lia|].
  destruct i as [|i]; simpl; [reflexivity|].
  rewrite IH by lia. now rewrite drop_drop.
Qed.

(** A run of [DescrSize] bytes inside the table, read through the bytes
    that [binary.Read] consumed, is the same run of the buffer. *)
Lemma slot_of_table (bs : list byte) (off d n i : nat) :
  (i < n)%nat ->
  take d (drop (i * d) (take (n * d) (drop off bs)))
  = take d (drop (off + i * d) bs).
Proof.
  intros Hi.
  replace (n * d)%nat with (i * d + (n - i) * d)%nat by nia.
  rewrite <- take_drop_commute, take_take, drop_drop.
  f_equal. nia.
Qed.

(** X4.  A buffer shorter than a header: [LoadContainerReader] returns
    the header-read error, [io.EOF] inside for an empty buffer and
    [io.ErrUnexpectedEOF] otherwise, and the image it returns has the
    zero header and the reader at the end of the buffer. *)
Theorem LoadContainerReader_short_header (bs : list byte) :
  0 < HdrSize -> Z.of_nat (length bs) < HdrSize ->
  LoadContainerReader (Some (bytes_NewReader bs))
  = Returned
      (set_Reader zeroFileImage (Some {| r_s := bs; r_i := Z.of_nat (length bs) |}),
       Some (ErrReadHeader (match bs with [] => EOF | _ => ErrUnexpectedEOF end))).
Proof.
  intros Hpos Hshort. unfold LoadContainerReader, readHeader, io_ReadFull. simpl.
  destruct (Z.leb_spec HdrSize 0); [lia|].
  destruct bs as [|b bs]; [reflexivity|].
  destruct (Z.leb_spec (Z.of_nat (length (b :: bs))) 0); [simpl in *; lia|].
  change (Z.to_nat 0) with O. rewrite drop_0.
  destruct (Z.ltb_spec (Z.of_nat (length (b :: bs))) HdrSize); [|lia].
  reflexivity.
Qed.

(** What [readDescriptors] returns: it leaves [Fp] and the header alone,
    and the table it leaves is the one it found (a failed seek), empty (a
    failed read) or of [Dtotal] slots. *)
Lemma readDescriptors_table (fimg fimg' : FileImage) (e : option error) :
  readDescriptors fimg = Returned (fimg', e) ->
  Hdr fimg' = Hdr fimg
  /\ (DescrArr fimg' = DescrArr fimg
      \/ DescrArr fimg' = []
      \/ (e = None /\ 0 <= Dtotal (Hdr fimg) <= maxSliceLen
          /\ length (DescrArr fimg') = Z.to_nat (Dtotal (Hdr fimg)))).
Proof.
  unfold readDescriptors, make_DescrArr.
  destruct (Reader fimg) as [r|]; [|discriminate].
  destruct (Reader_Seek r (Descroff (Hdr fimg))) as [c|r1];
    [intros [= <- <-]; auto|].
  simpl.
  destruct (Z.ltb_spec (Dtotal (Hdr fimg)) 0); [discriminate|].
  destruct (Z.ltb_spec maxSliceLen (Dtotal (Hdr fimg))); [discriminate|]. simpl.
  destruct (io_ReadFull r1 _) as [[c|bs] r2]; intros [= <- <-]; simpl; [auto|].
  split; [reflexivity|]. right; right.
  rewrite decodeDescriptors_length. auto with lia.
Qed.

(** X5.  An error of [LoadContainerReader] is the header-read error,
    with the header left zero, or the error of inspection validation of
    the header read; none comes from the descriptors.  The image
    returned with it has no descriptor and no file. *)
Theorem LoadContainerReader_error (b : option bytes_Reader) (fimg : FileImage)
    (err : error) :
  LoadContainerReader b = Returned (fimg, Some err) ->
  ((exists c, err = ErrReadHeader c /\ Hdr fimg = zeroHeader)
   \/ isValidSif fimg false = Some err)
  /\ DescrArr fimg = [] /\ Fp fimg = None.
Proof.
  unfold LoadContainerReader, readHeader. destruct b as [r|]; [|discriminate].
  simpl. destruct (io_ReadFull r HdrSize) as [[c|bs] r'].
  { intros [= <- <-]. simpl.
    split; [left; eexists; split; reflexivity | split; reflexivity]. }
  destruct (isValidSif _ false) as [e|] eqn:Hv.
  { intros [= <- <-]. split; [right; exact Hv | split; reflexivity]. }
  destruct (readDescriptors _) as [[f e]|msg]; discriminate.
Qed.

(** X17.  When [LoadContainerReader] returns without error, the host is
    supported, magic and version of the header are valid, and the table
    is either empty or of exactly [Dtotal] slots: never a part of it. *)
Theorem LoadContainerReader_all_or_nothing (b : option bytes_Reader) (fimg : FileImage) :
  LoadContainerReader b = Returned (fimg, None) ->
  hostSupported /\ validMagic (Hdr fimg) /\ validVersion (Hdr fimg)
  /\ (DescrArr fimg = []
      \/ length (DescrArr fimg) = Z.to_nat (Dtotal (Hdr fimg))).
Proof.
  unfold LoadContainerReader, readHeader. destruct b as [r|]; [|discriminate].
  simpl. destruct (io_ReadFull r HdrSize) as [[c|bs] r']; [discriminate|].
  destruct (isValidSif _ false) as [e|] eqn:Hv; [discriminate|].
  apply isValidSif_inspect_iff in Hv. simpl in Hv.
  destruct (readDescriptors _) as [[f e]|msg] eqn:Hrd; [|discriminate].
  intros [= <-]. destruct (readDescriptors_table _ _ _ Hrd) as [Hh Ht].
  rewrite Hh. simpl. destruct Hv as (? & ? & ?).
  repeat split; auto. simpl in Ht. destruct Ht as [->|[->|(_ & _ & ->)]]; auto.
Qed.

(** X6.  A buffer that holds a validated header and the whole of its
    descriptor table loads without error, and slot [i] of the table
    loaded, for each [i] below [Dtotal], is decoded from the [DescrSize]
    bytes of the buffer at [Descroff + i * DescrSize]. *)
Theorem LoadContainerReader_whole_table (bs : list byte) :
  0 < HdrSize <= Z.of_nat (length bs) ->
  hostSupported -> validMagic (headerOf bs) -> validVersion (headerOf bs) ->
  0 < DescrSize ->
  0 <= Descroff (headerOf bs) ->
  0 <= Dtotal (headerOf bs) <= maxSliceLen ->
  Descroff (headerOf bs) + Dtotal (headerOf bs) * DescrSize <= Z.of_nat (length bs) ->
  exists fimg,
    LoadContainerReader (Some (bytes_NewReader bs)) = Returned (fimg, None)
    /\ Hdr fimg = headerOf bs
    /\ length (DescrArr fimg) = Z.to_nat (Dtotal (headerOf bs))
    /\ forall i, (i < Z.to_nat (Dtotal (headerOf bs)))%nat ->
         DescrArr fimg !! i = Some (decodeDescriptor (slotBytes (headerOf bs) i bs)).
Proof.
  intros Hlen Hs Hm Hv Hsz Hoff [Hlo Hhi] Hfit.
  rewrite (LoadContainerReader_decoded bs Hlen).
  assert (isValidSif (headerRead bs) false = None) as ->
    by (apply isValidSif_inspect_iff; auto).
  unfold readDescriptors, make_DescrArr, Reader_Seek. simpl.
  destruct (Z.ltb_spec (Descroff (headerOf bs)) 0); [lia|]. simpl.
  destruct (Z.ltb_spec (Dtotal (headerOf bs)) 0); [lia|].
  destruct (Z.ltb_spec maxSliceLen (Dtotal (headerOf bs))); [lia|]. simpl.
  unfold io_ReadFull. simpl.
  destruct (Z.leb_spec (Dtotal (headerOf bs) * DescrSize) 0).
  { assert (Dtotal (headerOf bs) = 0) as Hz by nia.
    eexists. split; [reflexivity|]. simpl. rewrite Hz. simpl.
    split; [reflexivity|]. split; [reflexivity|]. intros i Hi. lia. }
  destruct (Z.leb_spec (Z.of_nat (length bs)) (Descroff (headerOf bs))); [lia|].
  rewrite length_drop.
  destruct (Z.ltb_spec (Z.of_nat (length bs - Z.to_nat (Descroff (headerOf bs))))
              (Dtotal (headerOf bs) * DescrSize)); [lia|].
  eexists. split; [reflexivity|]. simpl. split; [reflexivity|].
  split; [apply decodeDescriptors_length|].
  intros i Hi. rewrite decodeDescriptors_lookup by exact Hi.
  unfold slotBytes. do 2 f_equal.
  replace (Z.to_nat (Dtotal (headerOf bs) * DescrSize))
    with (Z.to_nat (Dtotal (headerOf bs)) * Z.to_nat DescrSize)%nat by nia.
  now apply slot_of_table.
Qed.

(** X8.  A negative table offset in a validated header: the seek fails
    before anything is allocated, so [LoadContainerReader] returns the
    image as the header left it, without error, whatever the capacity
    field holds. *)
Theorem LoadContainerReader_negative_offset (bs : list byte) :
  0 < HdrSize <= Z.of_nat (length bs) ->
  hostSupported -> validMagic (headerOf bs) -> validVersion (headerOf bs) ->
  Descroff (headerOf bs) < 0 ->
  LoadContainerReader (Some (bytes_NewReader bs)) = Returned (headerRead bs, None).
Proof.
  intros Hlen Hs Hm Hv Hoff.
  rewrite (LoadContainerReader_decoded bs Hlen).
  assert (isValidSif (headerRead bs) false = None) as ->
    by (apply isValidSif_inspect_iff; auto).
  unfold readDescriptors, Reader_Seek. simpl.
  destruct (Z.ltb_spec (Descroff (headerOf bs)) 0); [reflexivity|lia].
Qed.

(** X9.  On a buffer that holds a whole header, [LoadContainerReader]
    panics exactly when the header validates, the table offset is not
    negative, and the capacity is negative or beyond what [make]
    allocates. *)
Theorem LoadContainerReader_panics_iff (bs : list byte) :
  0 < HdrSize <= Z.of_nat (length bs) ->
  ~ returns (LoadContainerReader (Some (bytes_NewReader bs)))
  <-> hostSupported /\ validMagic (headerOf bs) /\ validVersion (headerOf bs)
      /\ 0 <= Descroff (headerOf bs)
      /\ (Dtotal (headerOf bs) < 0 \/ maxSliceLen < Dtotal (headerOf bs)).
Proof.
  intros Hlen. rewrite (LoadContainerReader_decoded bs Hlen).
  destruct (isValidSif (headerRead bs) false) as [e|] eqn:Hv.
  { split; [intros Hp; destruct Hp; exact I|].
    intros (Hs & Hm & Hver & _).
    assert (isValidSif (headerRead bs) false = None) as Hn
      by (apply isValidSif_inspect_iff; auto).
    congruence. }
  apply isValidSif_inspect_iff in Hv. destruct Hv as (Hs & Hm & Hver).
  unfold readDescriptors, make_DescrArr, Reader_Seek. simpl.
  destruct (Z.ltb_spec (Descroff (headerOf bs)) 0).
  { simpl. split; [intros Hp; destruct Hp; exact I|]. intros; lia. }
  simpl.
  destruct (Z.ltb_spec (Dtotal (headerOf bs)) 0),
    (Z.ltb_spec maxSliceLen (Dtotal (headerOf bs))); simpl;
    try (split; [intros _; auto 10 with lia | intros _ []]).
  destruct (io_ReadFull _ _) as [[c|bs'] r2]; simpl;
    (split; [intros Hp; destruct Hp; exact I | intros; lia]).
Qed.

End ReaderMore.

(** ** The life of an image, continued *)

Section LifecycleMore.
Context `{C : SifConsts} `{H : Host} `{L : Layout}.

(** A failed [mapFile] changes nothing in the world, and leaves
    [Filedata] as it was or [nil]. *)
Lemma mapFile_failure (fimg fimg' : FileImage) (rdonly : bool) (w w' : World)
    (e : error) :
  mapFile fimg rdonly w = ((fimg', Some e), w') ->
  w' = w /\ Fp fimg' = Fp fimg /\ Reader fimg' = Reader fimg
  /\ (Filedata fimg' = Filedata fimg \/ Filedata fimg' = nilSlice).
Proof.
  unfold mapFile.
  destruct (File_Stat (Fp fimg) w) as [c|sz]; [intros [= <- <- <-]; auto|].
  destruct (to_int64 (to_int (nextAligned sz (w_pagesize w))) <? sz);
    [intros [= <- <- <-]; auto|].
  destruct (syscall_Mmap _ _ _ _ _ w) as [[c|data] w1] eqn:Hmm; [|discriminate].
  intros [= <- <- <-]. simpl. repeat split; auto.
  revert Hmm. unfold syscall_Mmap.
  destruct (to_int (nextAligned sz (w_pagesize w)) <=? 0); [congruence|].
  destruct (w_files w !! _) as [f|]; [|congruence].
  destruct (if rdonly then PROT_READ else PROT_WRITE),
    (if rdonly then MAP_PRIVATE else MAP_SHARED), (of_rdwr f); congruence.
Qed.

(** A successful [mapFile] adds one mapping, at the first free address,
    and [Filedata] is the slice over it. *)
Lemma mapFile_adds (fimg fimg' : FileImage) (rdonly : bool) (w w' : World) :
  mapFile fimg rdonly w = ((fimg', None), w') ->
  exists b,
    w_maps w' = <[w_brk w := b]> (w_maps w)
    /\ Filedata fimg' = {| s_base := w_brk w; s_len := Z.of_nat (length b) |}
    /\ 0 < Z.of_nat (length b)
    /\ w_files w' = w_files w.
Proof.
  unfold mapFile.
  destruct (File_Stat (Fp fimg) w) as [c|sz]; [discriminate|].
  destruct (to_int64 (to_int (nextAligned sz (w_pagesize w))) <? sz); [discriminate|].
  destruct (syscall_Mmap _ _ _ _ _ w) as [[c|data] w1] eqn:Hmm; [discriminate|].
  intros [= <- <-]. simpl. revert Hmm. unfold syscall_Mmap.
  destruct (Z.leb_spec (to_int (nextAligned sz (w_pagesize w))) 0); [discriminate|].
  destruct (w_files w !! _) as [f|]; [|discriminate].
  set (b := take _ (of_data f ++ _)).
  assert (Z.of_nat (length b) = to_int (nextAligned sz (w_pagesize w))) as Hb.
  { subst b. rewrite length_take, length_app, length_replicate. lia. }
  intros Hm. exists b.
  assert ((inr {| s_base := w_brk w; s_len := to_int (nextAligned sz (w_pagesize w)) |},
           {| w_fs := w_fs w; w_files := w_files w; w_nextfile := w_nextfile w;
              w_maps := <[w_brk w := b]> (w_maps w);
              w_brk := w_brk w + to_int (nextAligned sz (w_pagesize w));
              w_pagesize := w_pagesize w |})
          = (inr data : cause + Slice, w1)) as Heq.
  { destruct (if rdonly then PROT_READ else PROT_WRITE),
      (if rdonly then MAP_PRIVATE else MAP_SHARED), (of_rdwr f);
      first [exact Hm | discriminate]. }
  inversion Heq; subst data w1. simpl. rewrite Hb. repeat split; auto; lia.
Qed.

(** Errors of [readHeader] and [readDescriptors] are later-step errors. *)
Lemma readHeader_error_later (fimg fimg' : FileImage) (e : error) :
  readHeader fimg = Returned (fimg', Some e) -> laterStepError e = true.
Proof.
  unfold readHeader. destruct (Reader fimg) as [r|]; [|discriminate].
  destruct (io_ReadFull r HdrSize) as [[c|bs] r']; intros [= <- <-]; reflexivity.
Qed.

Lemma readDescriptors_error_later (fimg fimg' : FileImage) (e : error) :
  readDescriptors fimg = Returned (fimg', Some e) -> laterStepError e = true.
Proof.
  unfold readDescriptors. destruct (Reader fimg) as [r|]; [|discriminate].
  destruct (Reader_Seek r _) as [c|r1]; [intros [= <- <-]; reflexivity|].
  simpl. destruct (make_DescrArr _) as [arr|msg]; [|discriminate]. simpl.
  destruct (io_ReadFull r1 _) as [[c|bs] r2]; intros [= <- <-]; reflexivity.
Qed.

(** [readHeader] leaves the descriptors alone; on success the header
    is a decoded one. *)
Lemma readHeader_DescrArr (fimg fimg' : FileImage) (e : option error) :
  readHeader fimg = Returned (fimg', e) -> DescrArr fimg' = DescrArr fimg.
Proof.
  unfold readHeader. destruct (Reader fimg) as [r|]; [|discriminate].
  destruct (io_ReadFull r HdrSize) as [[c|bs] r']; intros [= <- <-]; reflexivity.
Qed.

(** The outcomes of the steps behind the opening of the file.  Either
    [mapFile] failed: the world is as it was and nothing is mapped by
    this call.  Or the mapping was made: it is in the world on return,
    whether the steps behind it failed or not. *)
Lemma loadSteps_cases (f f' : FileImage) (rdonly : bool) (w w' : World)
    (e : option error) :
  loadSteps f rdonly w = Returned ((f', e), w') ->
  Fp f' = Fp f
  /\ ((exists err, e = Some err /\ laterStepError err = false /\ w' = w
                   /\ Reader f' = Reader f
                   /\ (Filedata f' = Filedata f \/ Filedata f' = nilSlice))
      \/ (exists b,
            (e = None \/ exists err, e = Some err /\ laterStepError err = true)
            /\ w_maps w' = <[w_brk w := b]> (w_maps w)
            /\ Filedata f' = {| s_base := w_brk w; s_len := Z.of_nat (length b) |}
            /\ 0 < Z.of_nat (length b)
            /\ w_files w' = w_files w)).
Proof.
  unfold loadSteps.
  destruct (mapFile f rdonly w) as [[f1 [e1|]] w1] eqn:Hmap.
  { intros Heq. simplify_eq.
    destruct (mapFile_failure _ _ _ _ _ _ Hmap) as (-> & Hfp & Hr & Hd).
    split; [exact Hfp|]. left. exists e1.
    rewrite (mapFile_error _ _ _ _ _ _ Hmap). auto. }
  destruct (mapFile_adds _ _ _ _ _ Hmap) as (b & Hmaps & Hdata & Hpos & Hfiles).
  destruct (mapFile_ok _ _ _ _ _ Hmap) as (_ & Hfp & _ & _).
  destruct (readHeader f1) as [[f2 e2]|msg] eqn:Hrh; [|discriminate].
  destruct (readHeader_frame _ _ _ Hrh) as (Hfp2 & Hdata2 & _).
  assert (forall g oe, Fp g = Fp f2 -> Filedata g = Filedata f2 ->
            (oe = None \/ exists err, oe = Some err /\ laterStepError err = true) ->
            Fp g = Fp f
            /\ ((exists err, oe = Some err /\ laterStepError err = false /\ w1 = w
                             /\ Reader g = Reader f
                             /\ (Filedata g = Filedata f \/ Filedata g = nilSlice))
                \/ (exists b,
                      (oe = None
                       \/ exists err, oe = Some err /\ laterStepError err = true)
                      /\ w_maps w1 = <[w_brk w := b]> (w_maps w)
                      /\ Filedata g = {| s_base := w_brk w;
                                         s_len := Z.of_nat (length b) |}
                      /\ 0 < Z.of_nat (length b)
                      /\ w_files w1 = w_files w))) as Hkeep.
  { intros g oe Hg Hd Hoe. split; [congruence|]. right. exists b.
    repeat split; auto. congruence. }
  destruct e2 as [e2|].
  { intros Heq. simplify_eq. apply Hkeep; auto.
    right. eexists. split; [reflexivity|]. eapply readHeader_error_later; eauto. }
  destruct (isValidSif f2 true) as [e3|] eqn:Hv.
  { intros Heq. simplify_eq. apply Hkeep; auto.
    right. eexists. split; [reflexivity|]. eapply isValidSif_error_later; eauto. }
  destruct (readDescriptors f2) as [[f4 e4]|msg] eqn:Hrd; [|discriminate].
  destruct (readDescriptors_frame _ _ _ Hrd) as (Hfp4 & Hdata4).
  intros Heq. simplify_eq. apply Hkeep; auto.
  destruct e as [e4|]; [right|left; reflexivity].
  eexists. split; [reflexivity|]. eapply readDescriptors_error_later; eauto.
Qed.

(** When the steps succeed, the header passed runnable validation and
    the table has [Dtotal] slots. *)
Lemma loadSteps_ok (f f' : FileImage) (rdonly : bool) (w w' : World) :
  loadSteps f rdonly w = Returned ((f', None), w') ->
  isValidSif f' true = None
  /\ 0 <= Dtotal (Hdr f') <= maxSliceLen
  /\ length (DescrArr f') = Z.to_nat (Dtotal (Hdr f')).
Proof.
  unfold loadSteps.
  destruct (mapFile f rdonly w) as [[f1 [e1|]] w1]; [discriminate|].
  destruct (readHeader f1) as [[f2 [e2|]]|msg]; try discriminate.
  destruct (isValidSif f2 true) as [e3|] eqn:Hv; [discriminate|].
  destruct (readDescriptors f2) as [[f4 e4]|msg] eqn:Hrd; [|discriminate].
  intros Heq. simplify_eq.
  revert Hrd. unfold readDescriptors, make_DescrArr.
  destruct (Reader f2) as [r|]; [|discriminate].
  destruct (Reader_Seek r _) as [c|r1]; [discriminate|]. simpl.
  destruct (Z.ltb_spec (Dtotal (Hdr f2)) 0); [discriminate|].
  destruct (Z.ltb_spec maxSliceLen (Dtotal (Hdr f2))); [discriminate|]. simpl.
  destruct (io_ReadFull r1 _) as [[c|bs] r2]; [discriminate|].
  intros [= <-]. simpl. rewrite decodeDescriptors_length.
  split; [|auto with lia].
  rewrite <- Hv. apply isValidSif_Hdr. reflexivity.
Qed.

(** What an open does: on failure nothing changes; on success the new
    handle is the next free one, it enters the table of open files, and
    the mappings are left alone. *)
Lemma os_OpenFile_inv (name : string) (rdwr : bool) (w w1 : World) (r : cause + Z) :
  os_OpenFile name rdwr w = (r, w1) ->
  match r with
  | inl _ => w1 = w
  | inr fp =>
      fp = w_nextfile w
      /\ (exists d, w_files w1 = <[w_nextfile w := mkOpenFile d rdwr]> (w_files w))
      /\ w_maps w1 = w_maps w /\ w_brk w1 = w_brk w
  end.
Proof.
  unfold os_OpenFile. destruct (w_fs w !! name) as [f|]; [|intros [= <- <-]; auto].
  destruct (fs_readable f && (negb rdwr || fs_writable f));
    intros [= <- <-]; simpl; eauto 10.
Qed.

(** A file that is there and may be accessed as asked opens. *)
Lemma os_OpenFile_ok (name : string) (rdwr : bool) (w : World) (f : FsFile) :
  w_fs w !! name = Some f ->
  fs_readable f && (negb rdwr || fs_writable f) = true ->
  os_OpenFile name rdwr w
  = (inr (w_nextfile w),
     {| w_fs := w_fs w;
        w_files := <[w_nextfile w := mkOpenFile (fs_data f) rdwr]> (w_files w);
        w_nextfile := w_nextfile w + 1;
        w_maps := w_maps w; w_brk := w_brk w; w_pagesize := w_pagesize w |}).
Proof. intros Hf Hacc. unfold os_OpenFile. now rewrite Hf, Hacc. Qed.

(** The open of [LoadContainer], in one call. *)
Lemma LoadContainer_open (filename : string) (rdonly : bool) (w : World) :
  (if rdonly then os_Open filename w else os_OpenFile filename true w)
  = os_OpenFile filename (negb rdonly) w.
Proof. destruct rdonly; reflexivity. Qed.

(** The outcomes of [LoadContainer]: the open failed and nothing
    happened; or the file was opened, stays in the table of open files,
    and the steps behind the opening went one of their two ways. *)
Lemma LoadContainer_cases (filename : string) (rdonly : bool) (w w' : World)
    (fimg : FileImage) (e : option error) :
  LoadContainer filename rdonly w = Returned ((fimg, e), w') ->
  (exists c,
     os_OpenFile filename (negb rdonly) w = (inl c, w)
     /\ fimg = zeroFileImage /\ w' = w
     /\ e = Some (if rdonly then ErrOpenRO c else ErrOpenRW c))
  \/ (exists d w1,
        os_OpenFile filename (negb rdonly) w = (inr (w_nextfile w), w1)
        /\ Fp fimg = Some (w_nextfile w)
        /\ w_files w' = <[w_nextfile w := mkOpenFile d (negb rdonly)]> (w_files w)
        /\ w_files w' = w_files w1
        /\ ((exists err, e = Some err /\ laterStepError err = false
                         /\ w' = w1 /\ w_maps w' = w_maps w
                         /\ Reader fimg = None /\ Filedata fimg = nilSlice)
            \/ (exists b,
                  (e = None \/ exists err, e = Some err /\ laterStepError err = true)
                  /\ w_maps w' = <[w_brk w := b]> (w_maps w)
                  /\ Filedata fimg = {| s_base := w_brk w;
                                        s_len := Z.of_nat (length b) |}
                  /\ 0 < Z.of_nat (length b)))).
Proof.
  unfold LoadContainer. rewrite LoadContainer_open.
  destruct (os_OpenFile filename (negb rdonly) w) as [[c|fp] w1] eqn:Hopen.
  - pose proof (os_OpenFile_inv _ _ _ _ _ Hopen) as ->.
    intros Heq. left. exists c. simplify_eq.
    repeat split; auto.
  - destruct (os_OpenFile_inv _ _ _ _ _ Hopen)
      as (-> & (d & Hfiles1) & Hmaps1 & Hbrk1).
    intros Hl. right. exists d, w1. split; [reflexivity|].
    destruct (loadSteps_cases _ _ _ _ _ _ Hl) as [Hfp Hc]. simpl in Hfp, Hc.
    split; [exact Hfp|].
    destruct Hc as [(err & -> & Hlater & -> & Hr & Hd)
                   |(b & He & Hmaps & Hd & Hpos & Hfiles)].
    + split; [exact Hfiles1|]. split; [reflexivity|]. left. exists err.
      repeat split; auto. destruct Hd; assumption.
    + split; [congruence|]. split; [exact Hfiles|]. right. exists b.
      rewrite Hmaps, Hd, Hmaps1, Hbrk1. auto.
Qed.

(** X10.  A file that opens and has no byte cannot be loaded, and the
    failure is that of the mapping, not of the header: [LoadContainer]
    returns the mmap error with the image holding the handle, size 0 and
    no mapped data, and the world is as the open left it: nothing is
    mapped and the file is not closed. *)
Theorem LoadContainer_empty_file (filename : string) (rdonly : bool)
    (w w1 : World) (fp : Z) :
  (if rdonly then os_Open filename w else os_OpenFile filename true w) = (inr fp, w1) ->
  File_Stat (Some fp) w1 = inr 0 ->
  LoadContainer filename rdonly w
  = Returned
      ((set_Filedata (set_Filesize (set_Fp zeroFileImage (Some fp)) 0) nilSlice,
        Some ErrMmap), w1).
Proof.
  intros Hopen Hstat. unfold LoadContainer. rewrite Hopen.
  unfold loadSteps, mapFile.
  change (Fp (set_Fp zeroFileImage (Some fp))) with (Some fp). rewrite Hstat.
  assert (nextAligned 0 (w_pagesize w1) = 0) as ->.
  { unfold nextAligned. destruct (w_pagesize w1 <=? 0); [reflexivity|].
    now rewrite Zmod_0_l. }
  reflexivity.
Qed.

(** X11.  A load that fails before the mapping is established (the
    file cannot be opened, sized or mapped) leaves the table of mappings
    as it was, and the image it returns holds no mapped data and no
    reader. *)
Theorem early_failure_maps_nothing :
  (forall filename rdonly w fimg err w',
     LoadContainer filename rdonly w = Returned ((fimg, Some err), w') ->
     laterStepError err = false ->
     w_maps w' = w_maps w /\ Filedata fimg = nilSlice /\ Reader fimg = None)
  /\ (forall fp rdonly w fimg err w',
        LoadContainerFp fp rdonly w = Returned ((fimg, Some err), w') ->
        laterStepError err = false ->
        w_maps w' = w_maps w /\ Filedata fimg = nilSlice /\ Reader fimg = None).
Proof.
  split.
  - intros filename rdonly w fimg err w' Hl Hearly.
    destruct (LoadContainer_cases _ _ _ _ _ _ Hl)
      as [(c & _ & -> & -> & _)
         |(d & w1 & _ & _ & _ & _ & [(err' & _ & _ & _ & Hm & Hr & Hd)
                                    |(b & [He|(err' & He & Hlate)] & _)])]; auto.
    + discriminate.
    + simplify_eq. congruence.
  - intros fp rdonly w fimg err w'. unfold LoadContainerFp.
    destruct fp as [fp|]; [|intros Heq _; simplify_eq; auto].
    intros Hl Hearly.
    destruct (loadSteps_cases _ _ _ _ _ _ Hl)
      as [_ [(err' & _ & _ & -> & Hr & Hd)
            |(b & [He|(err' & He & Hlate)] & _)]].
    + simpl in Hr, Hd. repeat split; auto. destruct Hd; assumption.
    + discriminate.
    + simplify_eq. congruence.
Qed.

(** X12.  [LoadContainer] never closes the file it opened: whenever
    its open succeeds, whatever the load then returns, error or not, the
    image holds the handle the open returned, the table of open files is
    as the open left it, and the handle is in it. *)
Theorem LoadContainer_file_stays_open (filename : string) (rdonly : bool)
    (w w1 w' : World) (fp : Z) (fimg : FileImage) (e : option error) :
  (if rdonly then os_Open filename w else os_OpenFile filename true w) = (inr fp, w1) ->
  LoadContainer filename rdonly w = Returned ((fimg, e), w') ->
  Fp fimg = Some fp /\ w_files w' = w_files w1 /\ is_Some (w_files w' !! fp).
Proof.
  intros Hopen Hl. rewrite LoadContainer_open in Hopen.
  destruct (LoadContainer_cases _ _ _ _ _ _ Hl)
    as [(c & Hfail & _)|(d & w1' & Hok & Hfp & Hfiles & Hfiles1 & _)];
    [congruence|].
  assert (fp = w_nextfile w /\ w1' = w1) as [-> ->] by (split; congruence).
  split; [exact Hfp|]. split; [exact Hfiles1|].
  rewrite Hfiles, lookup_insert_eq. eauto.
Qed.

(** X13.  Load, then unload, gives back what was taken: from a world
    whose next handle and next address are free, after [LoadContainer]
    has established the mapping (whether the load then succeeded or a
    later step failed), [UnloadContainer] on the image returned succeeds
    and leaves the tables of mappings and of open files as they were
    before the load. *)
Theorem load_unload_round_trip (filename : string) (rdonly : bool)
    (w w' : World) (fimg : FileImage) (e : option error) :
  w_files w !! w_nextfile w = None ->
  w_maps w !! w_brk w = None ->
  LoadContainer filename rdonly w = Returned ((fimg, e), w') ->
  e = None \/ (exists err, e = Some err /\ laterStepError err = true) ->
  exists w'',
    UnloadContainer (Some fimg) w' = Returned (None, w'')
    /\ w_maps w'' = w_maps w /\ w_files w'' = w_files w.
Proof.
  intros Hfile Haddr Hl He.
  destruct (LoadContainer_cases _ _ _ _ _ _ Hl)
    as [(c & _ & _ & _ & ->)
       |(d & w1 & _ & Hfp & Hfiles & _ & [(err & -> & Hearly & _)
                                         |(b & _ & Hmaps & Hd & Hpos)])].
  - destruct He as [He|(err & He & Hlate)]; [discriminate|].
    destruct rdonly; simplify_eq; discriminate.
  - destruct He as [He|(err' & He & Hlate)]; [discriminate|].
    simplify_eq. congruence.
  - unfold UnloadContainer, unmapFile, syscall_Munmap, File_Close.
    rewrite Hfp, Hd. simpl.
    destruct (Z.leb_spec (Z.of_nat (length b)) 0); [lia|].
    rewrite Hmaps, lookup_insert_eq, Z.eqb_refl. simpl.
    rewrite Hfiles, lookup_insert_eq.
    eexists. split; [reflexivity|]. simpl.
    split; apply delete_insert_id; assumption.
Qed.

(** X14.  An image loaded from a byte stream has no file behind it:
    [UnloadContainer] on it returns no error and changes nothing, in
    every world. *)
Theorem unload_of_stream_image (b : option bytes_Reader) (fimg : FileImage)
    (e : option error) (w : World) :
  LoadContainerReader b = Returned (fimg, e) ->
  UnloadContainer (Some fimg) w = Returned (None, w).
Proof.
  intros Hl.
  assert (Fp fimg = None) as Hfp.
  { revert Hl. unfold LoadContainerReader, readHeader.
    destruct b as [r|]; [|discriminate]. simpl.
    destruct (io_ReadFull r HdrSize) as [[c|bs] r']; [intros [= <- <-]; reflexivity|].
    destruct (isValidSif _ false); [intros [= <- <-]; reflexivity|].
    destruct (readDescriptors _) as [[f e']|msg] eqn:Hrd; [|discriminate].
    intros [= <- <-]. now destruct (readDescriptors_frame _ _ _ Hrd) as [-> _]. }
  unfold UnloadContainer. now rewrite Hfp.
Qed.

(** X15.  After a [LoadContainer] that failed before the mapping was
    established.  If the image returned holds a file (the open had
    succeeded), [UnloadContainer] on it does not release the file: with
    no mapping to unmap it returns the unmap error before it reaches the
    close, and the handle stays in the table of open files.  If the image
    holds no file (the open had failed), [UnloadContainer] returns no
    error and changes nothing. *)
Theorem unload_after_failed_mapping (filename : string) (rdonly : bool)
    (w w' : World) (fimg : FileImage) (err : error) :
  LoadContainer filename rdonly w = Returned ((fimg, Some err), w') ->
  laterStepError err = false ->
  (forall fp, Fp fimg = Some fp ->
     UnloadContainer (Some fimg) w' = Returned (Some ErrUnmap, w')
     /\ is_Some (w_files w' !! fp))
  /\ (Fp fimg = None -> UnloadContainer (Some fimg) w' = Returned (None, w')).
Proof.
  intros Hl Hearly.
  destruct (LoadContainer_cases _ _ _ _ _ _ Hl)
    as [(c & _ & -> & -> & _)
       |(d & w1 & _ & Hfp & Hfiles & _ & [(err' & _ & _ & _ & _ & _ & Hd)
                                         |(b & [He|(err' & He & Hlate)] & _)])].
  - split; [discriminate|reflexivity].
  - split; [|congruence]. intros fp Hfp'. split.
    + unfold UnloadContainer, unmapFile, syscall_Munmap. rewrite Hfp, Hd. reflexivity.
    + assert (fp = w_nextfile w) as -> by congruence.
      rewrite Hfiles, lookup_insert_eq. eauto.
  - discriminate.
  - simplify_eq. congruence.
Qed.

(** X16.  When [LoadContainer] or [LoadContainerFp] returns without
    error, the header of the image passed runnable validation (the host
    is supported, magic and version are valid, the tag is the host's),
    the capacity is one that [make] allocates, and the table has exactly
    that many slots. *)
Theorem load_success_postcondition :
  (forall filename rdonly w fimg w',
     LoadContainer filename rdonly w = Returned ((fimg, None), w') ->
     hostSupported /\ validMagic (Hdr fimg) /\ validVersion (Hdr fimg)
     /\ archTag (Hdr fimg) = hostArch
     /\ 0 <= Dtotal (Hdr fimg) <= maxSliceLen
     /\ length (DescrArr fimg) = Z.to_nat (Dtotal (Hdr fimg)))
  /\ (forall fp rdonly w fimg w',
        LoadContainerFp fp rdonly w = Returned ((fimg, None), w') ->
        hostSupported /\ validMagic (Hdr fimg) /\ validVersion (Hdr fimg)
        /\ archTag (Hdr fimg) = hostArch
        /\ 0 <= Dtotal (Hdr fimg) <= maxSliceLen
        /\ length (DescrArr fimg) = Z.to_nat (Dtotal (Hdr fimg))).
Proof.
  assert (forall f rdonly w fimg w',
            loadSteps f rdonly w = Returned ((fimg, None), w') ->
            hostSupported /\ validMagic (Hdr fimg) /\ validVersion (Hdr fimg)
            /\ archTag (Hdr fimg) = hostArch
            /\ 0 <= Dtotal (Hdr fimg) <= maxSliceLen
            /\ length (DescrArr fimg) = Z.to_nat (Dtotal (Hdr fimg))) as Hsteps.
  { intros f rdonly w fimg w' Hl.
    destruct (loadSteps_ok _ _ _ _ _ Hl) as (Hv & Hcap & Hlen).
    apply isValidSif_runnable_valid in Hv. tauto. }
  split.
  - intros filename rdonly w fimg w'. unfold LoadContainer.
    destruct (if rdonly then _ else _) as [[c|fp] w1]; [discriminate|].
    apply Hsteps.
  - intros fp rdonly w fimg w'. unfold LoadContainerFp.
    destruct fp as [fp|]; [|discriminate]. apply Hsteps.
Qed.

(** X18.  What [UnloadContainer] does to a file-backed image.  If
    [Filedata] is no active mapping it returns the unmap error and
    touches nothing: the file is not closed.  Otherwise the mapping is
    removed, and only then is the file closed: either the close succeeds
    and there is no error, or the file was closed already and the close
    error is returned with the mapping gone. *)
Theorem UnloadContainer_outcomes (fimg : FileImage) (fp : Z) (w w' : World)
    (e : option error) :
  Fp fimg = Some fp ->
  UnloadContainer (Some fimg) w = Returned (e, w') ->
  (e = Some ErrUnmap /\ w' = w /\ ~ mappingActive w (Filedata fimg))
  \/ (mappingActive w (Filedata fimg)
      /\ w_maps w' = delete (s_base (Filedata fimg)) (w_maps w)
      /\ ((e = None /\ is_Some (w_files w !! fp)
           /\ w_files w' = delete fp (w_files w))
          \/ (e = Some (ErrCloseFile ErrClosed) /\ w_files w !! fp = None
              /\ w_files w' = w_files w))).
Proof.
  intros Hfp. unfold UnloadContainer, unmapFile, syscall_Munmap, mappingActive.
  rewrite Hfp.
  destruct (Z.leb_spec (s_len (Filedata fimg)) 0).
  { intros [= <- <-]. left. repeat split; auto. intros [? _]. lia. }
  destruct (w_maps w !! s_base (Filedata fimg)) as [b|] eqn:Hb.
  2: { intros [= <- <-]. left. repeat split; auto.
       intros [_ (b & Hb' & _)]. congruence. }
  destruct (Z.eqb_spec (Z.of_nat (length b)) (s_len (Filedata fimg))) as [Hlen|Hlen].
  2: { intros [= <- <-]. left. repeat split; auto.
       intros [_ (b' & Hb' & Hlen')]. congruence. }
  unfold File_Close. simpl.
  destruct (w_files w !! fp) as [f|] eqn:Hf; intros [= <- <-]; right; simpl.
  - split; [eauto|]. split; [reflexivity|]. left. eauto.
  - split; [eauto|]. split; [reflexivity|]. right. auto.
Qed.

End LifecycleMore.

(** ** The further properties on explicit inputs *)

(** Closes a closed arithmetic or equational side condition by
    evaluation. *)
Ltac by_compute := vm_compute; intuition congruence.

Section ExamplesMore.
Import Fixture.

(** The corrupted magic is reported by inspection and by runnable
    validation alike. *)
Lemma inspection_error_is_runnable_error_witness :
  isValidSif (C := consts) (H := amd64) imageBadMagic false
  = Some (ErrMagic (sub 0 10 badMagic) "SIF_MAGIC")
  /\ isValidSif (C := consts) (H := amd64) imageBadMagic true
     = Some (ErrMagic (sub 0 10 badMagic) "SIF_MAGIC").
Proof.
  split; [reflexivity|].
  apply (inspection_error_is_runnable_error (C := consts) (H := amd64)). reflexivity.
Defined.

(** The first ten bytes of a header are no header. *)
Lemma LoadContainerReader_short_header_witness :
  LoadContainerReader (C := consts) (H := amd64) (L := layout)
    (Some (bytes_NewReader (take 10 headerOnly)))
  = Returned
      (set_Reader zeroFileImage (Some {| r_s := take 10 headerOnly; r_i := 10 |}),
       Some (ErrReadHeader ErrUnexpectedEOF)).
Proof.
  apply (LoadContainerReader_short_header (C := consts) (H := amd64) (L := layout)
           (take 10 headerOnly)); reflexivity.
Defined.

(** The buffer with the corrupted magic: the error is that of
    validation, and the image has no descriptor and no file. *)
Lemma LoadContainerReader_error_witness :
  ((exists c, ErrMagic (sub 0 10 badMagic) "SIF_MAGIC" = ErrReadHeader c
              /\ Hdr (headerRead (L := layout) badMagic) = zeroHeader)
   \/ isValidSif (C := consts) (H := amd64) (headerRead (L := layout) badMagic) false
      = Some (ErrMagic (sub 0 10 badMagic) "SIF_MAGIC"))
  /\ DescrArr (headerRead (L := layout) badMagic) = []
  /\ Fp (headerRead (L := layout) badMagic) = None.
Proof.
  apply (LoadContainerReader_error (C := consts) (H := amd64) (L := layout)
           (Some (bytes_NewReader badMagic))).
  reflexivity.
Defined.

(** The image of two slots behind its header loads whole: slot 0 is
    made of ones, slot 1 of twos. *)
Lemma LoadContainerReader_whole_table_witness :
  exists fimg,
    LoadContainerReader (C := consts) (H := amd64) (L := layout)
      (Some (bytes_NewReader twoSlots)) = Returned (fimg, None)
    /\ Hdr fimg = headerOf (L := layout) twoSlots
    /\ length (DescrArr fimg) = 2%nat
    /\ DescrArr fimg !! 0%nat = Some (replicate 585 x01)
    /\ DescrArr fimg !! 1%nat = Some (replicate 585 x02).
Proof.
  destruct (LoadContainerReader_whole_table (C := consts) (H := amd64) (L := layout)
              twoSlots
              ltac:(by_compute) ltac:(by_compute) ltac:(by_compute) ltac:(by_compute)
              ltac:(by_compute) ltac:(by_compute) ltac:(by_compute) ltac:(by_compute))
    as (fimg & Hl & Hh & Hn & Hslot).
  exists fimg. split; [exact Hl|]. split; [exact Hh|]. split; [exact Hn|].
  split; [exact (Hslot 0%nat ltac:(vm_compute; lia))
         |exact (Hslot 1%nat ltac:(vm_compute; lia))].
Defined.

(** The header-only buffer loads in the degraded mode. *)
Lemma LoadContainerReader_short_buffer_witness :
  exists fimg,
    LoadContainerReader (C := consts) (H := amd64) (L := layout)
      (Some (bytes_NewReader headerOnly)) = Returned (fimg, None)
    /\ Hdr fimg = headerOf (L := layout) headerOnly /\ DescrArr fimg = [].
Proof.
  apply (LoadContainerReader_short_buffer (C := consts) (H := amd64) (L := layout)
           headerOnly);
    vm_compute; intuition congruence.
Defined.

(** Table offset -1 and capacity -1: no panic, no error. *)
Lemma LoadContainerReader_negative_offset_witness :
  Descroff (headerOf (L := layout) negativeOffset) = -1
  /\ Dtotal (headerOf (L := layout) negativeOffset) = -1
  /\ LoadContainerReader (C := consts) (H := amd64) (L := layout)
       (Some (bytes_NewReader negativeOffset))
     = Returned (headerRead (L := layout) negativeOffset, None).
Proof.
  split; [reflexivity|]. split; [reflexivity|].
  apply (LoadContainerReader_negative_offset (C := consts) (H := amd64) (L := layout)
           negativeOffset);
    vm_compute; intuition congruence.
Defined.

(** The header-only buffer with 48 slots does not make the loader
    panic: its capacity is in range. *)
Lemma LoadContainerReader_panics_iff_witness :
  ~ returns (LoadContainerReader (C := consts) (H := amd64) (L := layout)
               (Some (bytes_NewReader headerOnly)))
  <-> hostSupported (C := consts) (H := amd64)
      /\ validMagic (C := consts) (headerOf (L := layout) headerOnly)
      /\ validVersion (C := consts) (headerOf (L := layout) headerOnly)
      /\ 0 <= Descroff (headerOf (L := layout) headerOnly)
      /\ (Dtotal (headerOf (L := layout) headerOnly) < 0
          \/ maxSliceLen (Layout := layout) < Dtotal (headerOf (L := layout) headerOnly)).
Proof.
  apply (LoadContainerReader_panics_iff (C := consts) (H := amd64) (L := layout)
           headerOnly).
  vm_compute; intuition congruence.
Defined.

(** What the three loads from [world1] return. *)
Lemma goodLoad_observed :
  match goodLoad with
  | Returned ((fimg, err), _) => (err, Fp fimg)
  | Panicked _ => (Some ErrNilFp, None)
  end = (None, Some 3).
Proof. vm_compute. reflexivity. Qed.

Lemma emptyLoad_observed :
  match emptyLoad with
  | Returned ((_, err), _) => err
  | Panicked _ => None
  end = Some ErrMmap.
Proof. vm_compute. reflexivity. Qed.

Lemma world1_fresh :
  w_files world1 !! w_nextfile world1 = None
  /\ w_maps world1 !! w_brk world1 = None.
Proof. split; vm_compute; reflexivity. Qed.

Lemma world1_files :
  w_fs world1 !! "good.sif"%string = Some (mkFsFile twoSlots true true)
  /\ w_fs world1 !! "empty.sif"%string = Some (mkFsFile [] true true).
Proof. split; vm_compute; reflexivity. Qed.

(** The empty file opens, for writing too, and has the handle 3. *)
Lemma emptyLoad_handle :
  match emptyLoad with
  | Returned ((fimg, err), _) => (err, Fp fimg)
  | Panicked _ => (None, None)
  end = (Some ErrMmap, Some 3).
Proof. vm_compute. reflexivity. Qed.

(** The file that may not be written does not open for writing: the
    open error, and an image without file. *)
Lemma lockedLoad_observed :
  match lockedLoad with
  | Returned ((fimg, err), _) => (err, Fp fimg)
  | Panicked _ => (None, None)
  end = (Some (ErrOpenRW EACCES), None).
Proof. vm_compute. reflexivity. Qed.

(** Loading the empty file. *)
Lemma LoadContainer_empty_file_witness :
  exists w1,
    os_OpenFile "empty.sif" true world1 = (inr 3, w1)
    /\ LoadContainer (C := consts) (H := amd64) (L := layout) "empty.sif" false world1
       = Returned
           ((set_Filedata (set_Filesize (set_Fp zeroFileImage (Some 3)) 0) nilSlice,
             Some ErrMmap), w1).
Proof.
  pose proof (os_OpenFile_ok "empty.sif" true world1 _ (proj2 world1_files) eq_refl)
    as Hopen.
  eexists. split; [exact Hopen|].
  apply (LoadContainer_empty_file (C := consts) (H := amd64) (L := layout)
           "empty.sif" false world1 _ 3 Hopen).
  unfold File_Stat. simpl. now rewrite lookup_insert_eq.
Defined.

Lemma early_failure_maps_nothing_witness :
  exists fimg w',
    LoadContainer (C := consts) (H := amd64) (L := layout) "empty.sif" false world1
    = Returned ((fimg, Some ErrMmap), w')
    /\ w_maps w' = w_maps world1 /\ Filedata fimg = nilSlice /\ Reader fimg = None.
Proof.
  pose proof emptyLoad_observed as Hobs. unfold emptyLoad in Hobs.
  destruct (LoadContainer _ _ world1) as [[[fimg err] w']|msg] eqn:Hload;
    [|discriminate Hobs].
  subst err.
  exists fimg, w'. split; [reflexivity|].
  exact (proj1 (early_failure_maps_nothing (C := consts) (H := amd64) (L := layout))
           _ _ _ _ _ _ Hload eq_refl).
Defined.

Lemma LoadContainer_file_stays_open_witness :
  exists fimg w1 w',
    os_Open "good.sif" world1 = (inr 3, w1)
    /\ LoadContainer (C := consts) (H := amd64) (L := layout) "good.sif" true world1
       = Returned ((fimg, None), w')
    /\ Fp fimg = Some 3 /\ w_files w' = w_files w1 /\ is_Some (w_files w' !! 3).
Proof.
  pose proof (os_OpenFile_ok "good.sif" false world1 _ (proj1 world1_files) eq_refl)
    as Hopen.
  pose proof goodLoad_observed as Hobs. unfold goodLoad in Hobs.
  destruct (LoadContainer _ _ world1) as [[[fimg err] w']|msg] eqn:Hload;
    [|discriminate Hobs].
  injection Hobs as -> Hfp.
  eexists fimg, _, w'. split; [exact Hopen|]. split; [reflexivity|].
  exact (LoadContainer_file_stays_open (C := consts) (H := amd64) (L := layout)
           "good.sif" true world1 _ w' 3 fimg None Hopen Hload).
Defined.

Lemma load_unload_round_trip_witness :
  exists fimg w' w'',
    LoadContainer (C := consts) (H := amd64) (L := layout) "good.sif" true world1
    = Returned ((fimg, None), w')
    /\ UnloadContainer (Some fimg) w' = Returned (None, w'')
    /\ w_maps w'' = w_maps world1 /\ w_files w'' = w_files world1.
Proof.
  pose proof goodLoad_observed as Hobs. unfold goodLoad in Hobs.
  destruct (LoadContainer _ _ world1) as [[[fimg err] w']|msg] eqn:Hload;
    [|discriminate Hobs].
  injection Hobs as -> Hfp.
  destruct (load_unload_round_trip (C := consts) (H := amd64) (L := layout)
              _ _ _ _ _ _ (proj1 world1_fresh) (proj2 world1_fresh) Hload
              (or_introl eq_refl))
    as (w'' & Hun & Hmaps & Hfiles).
  exists fimg, w', w''. auto.
Defined.

Lemma unload_of_stream_image_witness :
  UnloadContainer
    (Some (set_Reader (headerRead (L := layout) headerOnly)
             (Some {| r_s := headerOnly; r_i := 4096 |}))) world1
  = Returned (None, world1).
Proof.
  exact (unload_of_stream_image (C := consts) (H := amd64) (L := layout)
           _ _ _ world1 LoadContainerReader_headerOnly).
Defined.

Lemma unload_after_failed_mapping_witness :
  (exists fimg w',
     LoadContainer (C := consts) (H := amd64) (L := layout) "empty.sif" false world1
     = Returned ((fimg, Some ErrMmap), w')
     /\ Fp fimg = Some 3
     /\ UnloadContainer (Some fimg) w' = Returned (Some ErrUnmap, w')
     /\ is_Some (w_files w' !! 3))
  /\ (exists fimg w',
        LoadContainer (C := consts) (H := amd64) (L := layout) "locked.sif" false world1
        = Returned ((fimg, Some (ErrOpenRW EACCES)), w')
        /\ Fp fimg = None
        /\ UnloadContainer (Some fimg) w' = Returned (None, w')).
Proof.
  split.
  - pose proof emptyLoad_handle as Hobs. unfold emptyLoad in Hobs.
    destruct (LoadContainer _ _ world1) as [[[fimg err] w']|msg] eqn:Hload;
      [|discriminate Hobs].
    injection Hobs as -> Hfp.
    exists fimg, w'. split; [reflexivity|]. split; [exact Hfp|].
    exact (proj1 (unload_after_failed_mapping (C := consts) (H := amd64) (L := layout)
                    _ _ _ _ _ _ Hload eq_refl) 3 Hfp).
  - pose proof lockedLoad_observed as Hobs. unfold lockedLoad in Hobs.
    destruct (LoadContainer _ _ world1) as [[[fimg err] w']|msg] eqn:Hload;
      [|discriminate Hobs].
    injection Hobs as -> Hfp.
    exists fimg, w'. split; [reflexivity|]. split; [exact Hfp|].
    exact (proj2 (unload_after_failed_mapping (C := consts) (H := amd64) (L := layout)
                    _ _ _ _ _ _ Hload eq_refl) Hfp).
Defined.

Lemma load_success_postcondition_witness :
  exists fimg w',
    LoadContainer (C := consts) (H := amd64) (L := layout) "good.sif" true world1
    = Returned ((fimg, None), w')
    /\ archTag (C := consts) (Hdr fimg) = hostArch (C := consts) (H := amd64)
    /\ length (DescrArr fimg) = Z.to_nat (Dtotal (Hdr fimg)).
Proof.
  pose proof goodLoad_observed as Hobs. unfold goodLoad in Hobs.
  destruct (LoadContainer _ _ world1) as [[[fimg err] w']|msg] eqn:Hload;
    [|discriminate Hobs].
  injection Hobs as -> Hfp.
  exists fimg, w'. split; [reflexivity|].
  destruct (proj1 (load_success_postcondition (C := consts) (H := amd64) (L := layout))
              _ _ _ _ _ Hload) as (_ & _ & _ & Ha & _ & Hn).
  auto.
Defined.

Lemma LoadContainerReader_all_or_nothing_witness :
  exists fimg,
    LoadContainerReader (C := consts) (H := amd64) (L := layout)
      (Some (bytes_NewReader headerOnly)) = Returned (fimg, None)
    /\ validMagic (C := consts) (Hdr fimg)
    /\ (DescrArr fimg = []
        \/ length (DescrArr fimg) = Z.to_nat (Dtotal (Hdr fimg))).
Proof.
  eexists. split; [exact LoadContainerReader_headerOnly|].
  destruct (LoadContainerReader_all_or_nothing (C := consts) (H := amd64) (L := layout)
              _ _ LoadContainerReader_headerOnly) as (_ & Hm & _ & Hd).
  split; [exact Hm|exact Hd].
Defined.

(** An image with a file handle and no mapped data: the unmap error,
    and nothing touched. *)
Lemma UnloadContainer_outcomes_witness :
  UnloadContainer (Some (set_Fp (zeroFileImage (L := layout)) (Some 3))) world1
  = Returned (Some ErrUnmap, world1)
  /\ ~ mappingActive world1 (Filedata (set_Fp (zeroFileImage (L := layout)) (Some 3))).
Proof.
  split; [reflexivity|].
  destruct (UnloadContainer_outcomes (L := layout)
              (set_Fp zeroFileImage (Some 3)) 3 world1 world1 (Some ErrUnmap)
              eq_refl eq_refl) as [(_ & _ & Hn)|(_ & _ & [(He & _)|(He & _)])];
    [exact Hn|discriminate He|discriminate He].
Defined.

End ExamplesMore.
